(** * swaglyrics-issue-maker: the backend's core, embedded and verified

    A shallow embedding of [swaglyrics_backend/issue_maker.py]: the two
    expiring credential caches, the Genius title matcher, the
    [unsupported.txt] ledger, the [/unsupported] route and the
    [/issue_closed] webhook, followed by the properties of the backend's
    specification that concern them.

    Conventions of the embedding.
    - A Python [str] is a [string]; each [ascii] stands for one code point
      in U+0000..U+00FF.  Code points above U+00FF are outside the model.
    - A decoded JSON document is a [json] value (integers only).
    - Module state (the four token globals), the file [unsupported.txt] and
      the log of outbound HTTP calls form a [world]; a Python exception
      leaves the world as it was when the exception was raised.
    - What the outside provides during one request (clock readings, HTTP
      responses, results of library calls) is an [env].
    - Timestamps ([time.time()] and the expiries) are rationals.
    - The host is POSIX: text is written with LF as it is, and the ledger
      is read with the encoding it was written in. *)

From Stdlib Require Import String Ascii List Bool Arith NArith ZArith QArith.
From Stdlib Require Import Lia Lqa Permutation DecimalString.
Import ListNotations.

Local Close Scope Q_scope.
Local Open Scope list_scope.
Local Open Scope string_scope.

(** ** Python strings *)

Module PyStr.

Definition LF : ascii := "010"%char.
Definition CR : ascii := "013"%char.
Definition nl : string := String LF "".
Definition dq : string := String "034"%char "".

Definition code (c : ascii) : N := N_of_ascii c.

Definition in_range (lo hi : N) (c : ascii) : bool :=
  ((lo <=? code c) && (code c <=? hi))%N.

(** [str.isspace] on one character, which is also the class [\s] of [re]
    for [str] patterns: U+0009..U+000D, U+001C..U+001F, U+0020, U+0085,
    U+00A0. *)
Definition is_space (c : ascii) : bool :=
  in_range 9 13 c || in_range 28 32 c || (code c =? 133)%N || (code c =? 160)%N.

Definition is_upper_az (c : ascii) : bool := in_range 65 90 c.
Definition is_lower_az (c : ascii) : bool := in_range 97 122 c.
Definition is_digit (c : ascii) : bool := in_range 48 57 c.

(** [str.lower] on one character: A..Z and the Latin-1 capitals
    U+00C0..U+00DE (the multiplication sign U+00D7 apart) move up by 32. *)
Definition lower_char (c : ascii) : ascii :=
  if is_upper_az c || (in_range 192 222 c && negb (code c =? 215)%N)
  then ascii_of_N (code c + 32)
  else c.

Fixpoint lower (s : string) : string :=
  match s with
  | EmptyString => EmptyString
  | String c r => String (lower_char c) (lower r)
  end.

(** [needle in hay]. *)
Fixpoint str_in (needle hay : string) : bool :=
  if String.prefix needle hay then true
  else match hay with
       | EmptyString => false
       | String _ r => str_in needle r
       end.

Definition is_empty (s : string) : bool :=
  match s with EmptyString => true | _ => false end.

(** [s.split()]: maximal runs of non-whitespace characters. *)
Fixpoint split_from (cur s : string) : list string :=
  match s with
  | EmptyString => if is_empty cur then [] else [cur]
  | String c r =>
      if is_space c
      then (if is_empty cur then split_from "" r else cur :: split_from "" r)
      else split_from (cur ++ String c "") r
  end.

Definition split (s : string) : list string := split_from "" s.

Fixpoint forallb_str (p : ascii -> bool) (s : string) : bool :=
  match s with
  | EmptyString => true
  | String c r => p c && forallb_str p r
  end.

Fixpoint filter_str (p : ascii -> bool) (s : string) : string :=
  match s with
  | EmptyString => EmptyString
  | String c r => if p c then String c (filter_str p r) else filter_str p r
  end.

Fixpoint drop (n : nat) (s : string) : string :=
  match n, s with
  | O, _ => s
  | S n', String _ r => drop n' r
  | S _, EmptyString => EmptyString
  end.

Fixpoint join (sep : string) (l : list string) : string :=
  match l with
  | [] => ""
  | [x] => x
  | x :: r => x ++ sep ++ join sep r
  end.

Fixpoint concat_all (l : list string) : string :=
  match l with
  | [] => ""
  | x :: r => x ++ concat_all r
  end.

(** [str(n)] for a natural number and for an integer. *)
Definition str_of_nat (n : nat) : string := NilZero.string_of_uint (Nat.to_uint n).
Definition str_of_Z (z : Z) : string := NilZero.string_of_int (Z.to_int z).

(** Text-mode reads ([open(path, 'r')], [newline=None]) translate the line
    ends CR LF and CR to LF.  Text-mode writes on the POSIX host leave LF
    as it is. *)
Fixpoint universal_newlines (s : string) : string :=
  match s with
  | EmptyString => EmptyString
  | String c r =>
      if Ascii.eqb c CR then
        match r with
        | String c2 r2 =>
            if Ascii.eqb c2 LF
            then String LF (universal_newlines r2)
            else String LF (universal_newlines r)
        | EmptyString => String LF EmptyString
        end
      else String c (universal_newlines r)
  end.

(** Lines of an already translated text, each with its terminating LF
    (the last one may lack it), as [readlines] yields them. *)
Fixpoint lines_of (s : string) : list string :=
  match s with
  | EmptyString => []
  | String c r =>
      if Ascii.eqb c LF then nl :: lines_of r
      else match lines_of r with
           | [] => [String c ""]
           | l :: ls => String c l :: ls
           end
  end.

End PyStr.
Import PyStr.


(** ** Exceptions and decoded JSON *)

Inductive exn : Type :=
| KeyError (key : string)
| IndexError
| TypeError
| AttributeError
| ValueError.

Inductive result (A : Type) : Type :=
| Ok (a : A)
| Raise (e : exn).
Arguments Ok {A} a.
Arguments Raise {A} e.

#[warnings="-register-all"]
Inductive json : Type :=
| JNull
| JBool (b : bool)
| JNum (n : Z)
| JStr (s : string)
| JArr (items : list json)
| JObj (fields : list (string * json)).

Module Json.

Fixpoint assoc (k : string) (fields : list (string * json)) : option json :=
  match fields with
  | [] => None
  | (k', v) :: r => if String.eqb k' k then Some v else assoc k r
  end.

(** [v[key]] for a string key. *)
Definition getitem (v : json) (key : string) : result json :=
  match v with
  | JObj fields =>
      match assoc key fields with
      | Some x => Ok x
      | None => Raise (KeyError key)
      end
  | _ => Raise TypeError
  end.

(** [v[0]]. *)
Definition getitem0 (v : json) : result json :=
  match v with
  | JArr (x :: _) => Ok x
  | JArr [] => Raise IndexError
  | JStr (String c _) => Ok (JStr (String c ""))
  | JStr EmptyString => Raise IndexError
  | JObj _ => Raise (KeyError "0")
  | _ => Raise TypeError
  end.

(** [v[:n]] is evaluated only to be printed: what matters is whether it
    raises ([None], booleans and numbers are not subscriptable, a [dict]
    does not take a slice). *)
Definition slice_check (v : json) : result unit :=
  match v with
  | JStr _ | JArr _ => Ok tt
  | _ => Raise TypeError
  end.

(** Truth value of [v] in [if v:]. *)
Definition truthy (v : json) : bool :=
  match v with
  | JNull => false
  | JBool b => b
  | JNum n => negb (n =? 0)%Z
  | JStr s => negb (is_empty s)
  | JArr l => match l with [] => false | _ => true end
  | JObj l => match l with [] => false | _ => true end
  end.

(** [v == s] for a string [s]. *)
Definition eq_str (v : json) (s : string) : bool :=
  match v with
  | JStr t => String.eqb t s
  | _ => false
  end.

End Json.

(** [str(v)] and [repr(v)] of a decoded JSON value, as [str.format] and
    f-strings render it. *)
Module PyRepr.

Definition hex_digit (n : N) : ascii :=
  if (n <? 10)%N then ascii_of_N (48 + n) else ascii_of_N (87 + n).

Definition printable (c : ascii) : bool :=
  negb (in_range 0 31 c || in_range 127 160 c || (code c =? 173)%N).

Definition bs : ascii := "092"%char.

Definition escape_char (quote c : ascii) : string :=
  if Ascii.eqb c quote || Ascii.eqb c bs then String bs (String c "")
  else if Ascii.eqb c "009"%char then String bs "t"
  else if Ascii.eqb c LF then String bs "n"
  else if Ascii.eqb c CR then String bs "r"
  else if printable c then String c ""
  else String bs "x" ++ String (hex_digit (code c / 16)) (String (hex_digit (code c mod 16)) "").

Fixpoint escape (quote : ascii) (s : string) : string :=
  match s with
  | EmptyString => EmptyString
  | String c r => escape_char quote c ++ escape quote r
  end.

Definition has_char (c : ascii) (s : string) : bool :=
  negb (forallb_str (fun x => negb (Ascii.eqb x c)) s).

Definition repr_str (s : string) : string :=
  let quote : ascii :=
    if has_char "'"%char s && negb (has_char "034"%char s) then "034"%char else "'"%char in
  String quote (escape quote s) ++ String quote "".

Fixpoint repr (v : json) : string :=
  match v with
  | JNull => "None"
  | JBool true => "True"
  | JBool false => "False"
  | JNum n => str_of_Z n
  | JStr s => repr_str s
  | JArr items => "[" ++ join ", " (map repr items) ++ "]"
  | JObj fields =>
      "{" ++ join ", " (map (fun kv => repr_str (fst kv) ++ ": " ++ repr (snd kv)) fields) ++ "}"
  end.

Definition str (v : json) : string :=
  match v with
  | JStr s => s
  | _ => repr v
  end.

End PyRepr.

(** ** The world, the environment and the monad of request handlers *)

(** An HTTP response as [requests] presents it: the status code and the
    body as [r.json()] decodes it ([None]: the body is not JSON and
    [r.json()] raises a [ValueError]). *)
Record response : Type := mkResponse {
  status_code : Z;
  body : option json
}.

(** Outbound HTTP calls, in the order they are made. *)
Inductive call : Type :=
| InstallationTokenRequest
| SpotifyTokenRequest
| SpotifySearch (token : json) (q : string)
| GithubCreateIssue (token : json) (title text : string).

Record world : Type := mkWorld {
  gh_token : json;
  gh_token_expiry : Q;
  spotify_token : json;
  spotify_token_expiry : Q;
  unsupported_txt : string;
  calls : list call
}.

(** The module's state when it is loaded (lines 33-38), next to a given
    ledger file. *)
Definition initial_world (ledger : string) : world :=
  mkWorld (JStr "") 0 (JStr "") 0 ledger [].

(** What one request sees of the outside.  [strptime_timestamp s] is
    [datetime.strptime(s, "%Y-%m-%dT%H:%M:%S%z").timestamp()], [None] when
    it raises [ValueError]; [stripped] is what [swaglyrics.cli.stripper]
    returns for the request's song and artist. *)
Record env : Type := mkEnv {
  t_github_check : Q;
  installation_token_response : response;
  strptime_timestamp : string -> option Q;
  github_issue_response : response;
  t_spotify_check : Q;
  spotify_token_response : response;
  t_spotify_store : Q;
  spotify_search_response : response;
  stripped : string
}.

Definition M (A : Type) : Type := world -> result A * world.

Definition ret {A} (a : A) : M A := fun w => (Ok a, w).

Definition bind {A B} (m : M A) (k : A -> M B) : M B :=
  fun w =>
    match m w with
    | (Ok a, w') => k a w'
    | (Raise e, w') => (Raise e, w')
    end.

Definition raise {A} (e : exn) : M A := fun w => (Raise e, w).

Definition lift {A} (r : result A) : M A := fun w => (r, w).

Definition get : M world := fun w => (Ok w, w).

Definition modify (f : world -> world) : M unit := fun w => (Ok tt, f w).

(** [try: m except IndexError: h]-style handlers: [catch m is_handled h]. *)
Definition catch {A} (m : M A) (handles : exn -> bool) (h : M A) : M A :=
  fun w =>
    match m w with
    | (Raise e, w') => if handles e then h w' else (Raise e, w')
    | r => r
    end.

Declare Scope py_scope.
Delimit Scope py_scope with py.
Notation "x <- m ;; k" := (bind m (fun x => k))
  (at level 61, m at next level, right associativity) : py_scope.
Notation "m ;; k" := (bind m (fun _ => k))
  (at level 61, right associativity) : py_scope.
Local Open Scope py_scope.

Definition set_gh_token (v : json) (w : world) : world :=
  mkWorld v (gh_token_expiry w) (spotify_token w) (spotify_token_expiry w)
          (unsupported_txt w) (calls w).

Definition set_gh_token_expiry (t : Q) (w : world) : world :=
  mkWorld (gh_token w) t (spotify_token w) (spotify_token_expiry w)
          (unsupported_txt w) (calls w).

Definition set_spotify_token (v : json) (w : world) : world :=
  mkWorld (gh_token w) (gh_token_expiry w) v (spotify_token_expiry w)
          (unsupported_txt w) (calls w).

Definition set_spotify_token_expiry (t : Q) (w : world) : world :=
  mkWorld (gh_token w) (gh_token_expiry w) (spotify_token w) t
          (unsupported_txt w) (calls w).

Definition set_unsupported_txt (s : string) (w : world) : world :=
  mkWorld (gh_token w) (gh_token_expiry w) (spotify_token w)
          (spotify_token_expiry w) s (calls w).

Definition log_call (c : call) (w : world) : world :=
  mkWorld (gh_token w) (gh_token_expiry w) (spotify_token w)
          (spotify_token_expiry w) (unsupported_txt w) (calls w ++ [c])%list.

(** [r.json()]. *)
Definition response_json (r : response) : result json :=
  match body r with
  | Some v => Ok v
  | None => Raise ValueError
  end.

(** [a > b] on timestamps. *)
Definition Qgtb (a b : Q) : bool := negb (Qle_bool a b).

(** ** The credential caches (lines 89-125) *)

(** Lines 103-106: what [get_github_token] does with the decoded answer of
    the installation-token exchange. *)
Definition github_store (e : env) (r : response) : M json :=
  resp <- lift (response_json r) ;;
  tok <- lift (Json.getitem resp "token") ;;
  modify (set_gh_token tok) ;;
  expires_at <- lift (Json.getitem resp "expires_at") ;;
  ts <- lift (match expires_at with
              | JStr s => match strptime_timestamp e s with
                          | Some t => Ok t
                          | None => Raise ValueError
                          end
              | _ => Raise TypeError
              end) ;;
  modify (set_gh_token_expiry ts) ;;
  lift (Json.slice_check tok) ;;
  ret tok.

Definition get_github_token (e : env) : M json :=
  w <- get ;;
  if Qgtb (gh_token_expiry w - 180) (t_github_check e) then
    lift (Json.slice_check (gh_token w)) ;;
    ret (gh_token w)
  else
    modify (log_call InstallationTokenRequest) ;;
    github_store e (installation_token_response e).

(** Lines 121-125: what [get_spotify_token] does with the answer of the
    client-credentials exchange. *)
Definition spotify_store (e : env) (r : response) : M json :=
  resp <- lift (response_json r) ;;
  tok <- lift (Json.getitem resp "access_token") ;;
  modify (set_spotify_token tok) ;;
  modify (set_spotify_token_expiry (t_spotify_store e + 3600)) ;;
  lift (Json.slice_check tok) ;;
  ret tok.

Definition get_spotify_token (e : env) : M json :=
  w <- get ;;
  if Qgtb (spotify_token_expiry w - 300) (t_spotify_check e) then
    lift (Json.slice_check (spotify_token w)) ;;
    ret (spotify_token w)
  else
    modify (log_call SpotifyTokenRequest) ;;
    spotify_store e (spotify_token_response e).

(** ** Regular expressions of the module (lines 44-52) *)

Module Re.

(** [alg = [^\sa-zA-Z0-9]+], used as [re.sub(alg, '', s)]: every character
    outside whitespace, a-z, A-Z and 0-9 is removed. *)
Definition alg_keeps (c : ascii) : bool :=
  is_space c || is_lower_az c || is_upper_az c || is_digit c.

Definition sub_alg (s : string) : string := filter_str alg_keeps s.

(** [asrg = [A-Za-z\s]+], used as [re.fullmatch(asrg, s)]. *)
Definition asrg_class (c : ascii) : bool :=
  is_upper_az c || is_lower_az c || is_space c.

Definition fullmatch_asrg (s : string) : bool :=
  negb (is_empty s) && forallb_str asrg_class s.

(** Greedy [(.+)] followed by the continuation [k]: the longest non-empty
    run of characters other than LF after which [k] accepts, as the
    backtracking matcher finds it. *)
Fixpoint dot_plus {A} (k : string -> option A) (s : string) : option (string * A) :=
  match s with
  | EmptyString => None
  | String c r =>
      if Ascii.eqb c LF then None
      else match dot_plus k r with
           | Some (g, a) => Some (String c g, a)
           | None =>
               match k r with
               | Some a => Some (String c "", a)
               | None => None
               end
           end
  end.

(** A literal, then the continuation. *)
Definition lit {A} (l : string) (k : string -> option A) (s : string) : option A :=
  if String.prefix l s then k (drop (String.length l) s) else None.

(** A single [.], then anything ([match] does not anchor the end). *)
Definition dot_then_any (s : string) : option unit :=
  match s with
  | String c _ => if Ascii.eqb c LF then None else Some tt
  | EmptyString => None
  end.

(** [wdt = (.+) by (.+) unsupported.], used as [wdt.match(title)]: the two
    groups of the match, or [None]. *)
Definition match_wdt (title : string) : option (string * string) :=
  match dot_plus (lit " by " (dot_plus (lit " unsupported" dot_then_any))) title with
  | Some (song, (artist, _)) => Some (song, artist)
  | _ => None
  end.

End Re.

(** ** The title matcher (lines 138-187) *)

Fixpoint is_title_mismatched_from (err_cnt : nat) (words : list string)
         (full_title : string) (max_err : nat) : bool :=
  match words with
  | [] => false
  | word :: rest =>
      if negb (str_in (lower word) (lower full_title)) then
        if Nat.ltb max_err (S err_cnt) then true
        else is_title_mismatched_from (S err_cnt) rest full_title max_err
      else is_title_mismatched_from err_cnt rest full_title max_err
  end.

Definition is_title_mismatched (words : list string) (full_title : string)
           (max_err : nat) : bool :=
  is_title_mismatched_from 0 words full_title max_err.

(** The part of [genius_stripper] that prepares the query (lines 138-149)
    and judges one hit's [full_title] (lines 162-165). *)
Definition genius_words (song artist : string) : list string :=
  split (Re.sub_alg (song ++ " by " ++ artist)).

Definition genius_max_err (song artist : string) : nat :=
  List.length (genius_words song artist) / 2.

Definition genius_hit_accepted (song artist full_title : string) : bool :=
  negb (is_title_mismatched (genius_words song artist)
                            (Re.sub_alg full_title)
                            (genius_max_err song artist)).

(** ** The ledger [unsupported.txt] *)

(** [f.read()] and [f.readlines()] of a file opened with [open(path, 'r')]. *)
Definition read_text (content : string) : string := universal_newlines content.
Definition readlines (content : string) : list string := lines_of (read_text content).

(** The line of a pair, without and with its line end. *)
Definition pair_text (song artist : string) : string := song ++ " by " ++ artist.
Definition pair_line (song artist : string) : string := pair_text song artist ++ nl.

(** Membership as [update] tests it (lines 320-322). *)
Definition ledger_contains (song artist content : string) : bool :=
  str_in (pair_text song artist) (read_text content).

(** The append of [update] (lines 332-333). *)
Definition ledger_append (song artist content : string) : string :=
  content ++ pair_line song artist.

(** The loop of [del_line] (lines 257-262): [cnt] counts the dropped lines,
    [out] is what has been written to the reopened file so far. *)
Fixpoint del_line_loop (target : string) (lines : list string) (cnt : nat)
         (out : string) : nat * string :=
  match lines with
  | [] => (cnt, out)
  | line :: rest =>
      if String.eqb line target
      then del_line_loop target rest (S cnt) out
      else del_line_loop target rest cnt (out ++ line)
  end.

Definition del_line_file (song artist content : string) : nat * string :=
  del_line_loop (pair_line song artist) (readlines content) 0 "".

Definition del_line (song artist : string) : M nat :=
  w <- get ;;
  let r := del_line_file song artist (unsupported_txt w) in
  modify (set_unsupported_txt (snd r)) ;;
  ret (fst r).

(** [/master_unsupported] (lines 381-385). *)
Definition master_unsupported : M string :=
  w <- get ;;
  ret (read_text (unsupported_txt w)).

(** ** Issue creation and the legitimacy check (lines 190-243) *)

Definition rbind {A B} (r : result A) (k : A -> result B) : result B :=
  match r with
  | Ok a => k a
  | Raise e => Raise e
  end.

Definition issue_title (song artist : string) : string :=
  song ++ " by " ++ artist ++ " unsupported.".

Definition issue_text (stripper version : string) : string :=
  "Check if issue with swaglyrics or whether song lyrics unavailable on Genius. "
  ++ nl ++ "<hr>" ++ nl ++ " <tt><b>" ++ "stripper -> " ++ stripper ++ "</b>"
  ++ nl ++ nl ++ "version -> " ++ version ++ "</tt>".

(** The returned dictionary as the pair of its ['status_code'] and
    ['link']. *)
Definition create_issue (e : env) (song artist version stripper : string)
  : M (Z * json) :=
  tok <- get_github_token e ;;
  modify (log_call (GithubCreateIssue tok (issue_title song artist)
                                      (issue_text stripper version))) ;;
  let r := github_issue_response e in
  link <- lift (rbind (response_json r) (fun doc => Json.getitem doc "html_url")) ;;
  ret (status_code r, link).

Definition is_KeyError (x : exn) : bool :=
  match x with KeyError _ => true | _ => false end.

Definition is_IndexError (x : exn) : bool :=
  match x with IndexError => true | _ => false end.

Definition check_song (e : env) (song artist : string) : M bool :=
  tok <- get_spotify_token e ;;
  modify (log_call (SpotifySearch tok (song ++ " " ++ artist))) ;;
  let r := spotify_search_response e in
  found <- catch
    (data <- lift (rbind (response_json r) (fun doc =>
                   rbind (Json.getitem doc "tracks") (fun tracks =>
                   Json.getitem tracks "items"))) ;;
     ret (Some data))
    is_KeyError
    (ret None) ;;
  match found with
  | None => ret false
  | Some data =>
      if Json.truthy data then
        (* the [print] of line 237 evaluates the artist's name first *)
        artist_name <- lift (rbind (Json.getitem0 data) (fun first =>
                             rbind (Json.getitem first "artists") (fun artists =>
                             rbind (Json.getitem0 artists) (fun a0 =>
                             Json.getitem a0 "name")))) ;;
        name <- lift (rbind (Json.getitem0 data) (fun first =>
                      Json.getitem first "name")) ;;
        if Json.eq_str name song && Json.eq_str artist_name artist
        then ret true
        else ret false
      else ret false
  end.

(** ** The [/unsupported] route (lines 303-345) *)

Definition gh_issue_text : string :=
  "If you feel there's an error, open a ticket at " ++
  "https://github.com/SwagLyrics/SwagLyrics-For-Spotify/issues".

Definition update_text : string :=
  "Please update SwagLyrics to the latest version to get better support :)".

Definition already_exists_text : string :=
  "Issue already exists on the GitHub repo. " ++ nl ++
  "https://github.com/SwagLyrics/SwagLyrics-For-Spotify/issues".

Definition may_not_exist_text (song artist : string) : string :=
  "Lyrics for " ++ song ++ " by " ++ artist ++ " may not exist on Genius." ++ nl
  ++ gh_issue_text.

Definition created_text (song artist : string) (link : json) : string :=
  "Lyrics for that song may not exist on Genius. " ++
  "Created issue on the GitHub repo for " ++ song ++ " by " ++ artist ++
  " to investigate " ++ "further. " ++ nl ++ PyRepr.str link.

Definition logged_text (song artist : string) : string :=
  "Logged " ++ song ++ " by " ++ artist ++ " in the server.".

Definition fishy_text : string :=
  "That's a fishy request, that song doesn't seem to exist on Spotify. " ++ nl
  ++ gh_issue_text.

(** [version] is [None] when the form has no ['version'] field. *)
Definition update (e : env) (song artist : string) (version : option string)
  : M string :=
  match version with
  | None => ret update_text
  | Some version =>
      if String.ltb version "1.1.1" then ret update_text
      else
        w <- get ;;
        let data := read_text (unsupported_txt w) in
        if str_in (song ++ " by " ++ artist) data then ret already_exists_text
        else if Re.fullmatch_asrg song && Re.fullmatch_asrg artist
        then ret (may_not_exist_text song artist)
        else
          legit <- check_song e song artist ;;
          if legit then
            modify (fun w => set_unsupported_txt
                               (unsupported_txt w ++ (song ++ " by " ++ artist ++ nl)) w) ;;
            issue <- create_issue e song artist version (stripped e) ;;
            if (fst issue =? 201)%Z
            then ret (created_text song artist (snd issue))
            else ret (logged_text song artist)
          else ret fishy_text
  end.

(** ** The [/issue_closed] webhook (lines 406-448) *)

Definition not_relevant : string := "Event type not unsupported song issue closed.".

Definition msg_json (m : string) : string :=
  "{" ++ dq ++ "msg" ++ dq ++ ": " ++ dq ++ m ++ dq ++ "}".

(** [method] is [request.method], [event] the [X-GitHub-Event] header
    ([None] when absent) and [payload] what [validate_request] returned. *)
Definition github_webhook (method : string) (event : option string)
           (payload : json) : M string :=
  if negb (String.eqb method "POST") then ret "OK"
  else
    match event with
    | Some "ping" => ret (msg_json "pong")
    | Some "issues" =>
        fields <- catch
          (label <- lift (rbind (Json.getitem payload "issue") (fun issue =>
                          rbind (Json.getitem issue "labels") (fun labels =>
                          rbind (Json.getitem0 labels) (fun l0 =>
                          Json.getitem l0 "name")))) ;;
           repo <- lift (rbind (Json.getitem payload "repository") (fun r =>
                         Json.getitem r "name")) ;;
           ret (Some (label, repo)))
          is_IndexError
          (ret None) ;;
        match fields with
        | None => ret not_relevant
        | Some (label, repo) =>
            action <- lift (Json.getitem payload "action") ;;
            if Json.eq_str action "closed" && Json.eq_str label "unsupported song"
               && Json.eq_str repo "SwagLyrics-For-Spotify"
            then
              title <- lift (rbind (Json.getitem payload "issue") (fun issue =>
                             Json.getitem issue "title")) ;;
              m <- lift (match title with
                         | JStr t => Ok (Re.match_wdt t)
                         | _ => Raise TypeError
                         end) ;;
              match m with
              | None => raise AttributeError
              | Some (song, artist) =>
                  cnt <- del_line song artist ;;
                  ret ("Deleted " ++ str_of_nat cnt ++ " instances from unsupported.txt")
              end
            else ret not_relevant
        end
    | _ => ret (msg_json "Wrong event type")
    end.

(** ** Callers of the credential caches that overlap in time

    The module keeps its tokens in globals and takes no lock, so request
    threads that call [get_github_token] or [get_spotify_token] at the same
    time interleave where a call blocks on the network.  A caller goes
    through the expiry test, the refresh request and the store of the
    answer; a schedule says which caller moves next and what the outside
    gives it. *)

Inductive provider : Type := Installation | ClientCredentials.

Inductive caller : Type :=
| Start
| Refreshing
| Received (r : response)
| Done (out : result json).

Definition margin (p : provider) : Q :=
  match p with Installation => 180 | ClientCredentials => 300 end.

Definition cached_token (p : provider) (w : world) : json :=
  match p with Installation => gh_token w | ClientCredentials => spotify_token w end.

Definition cached_expiry (p : provider) (w : world) : Q :=
  match p with
  | Installation => gh_token_expiry w
  | ClientCredentials => spotify_token_expiry w
  end.

Definition check_time (p : provider) (e : env) : Q :=
  match p with Installation => t_github_check e | ClientCredentials => t_spotify_check e end.

Definition refresh_request (p : provider) : call :=
  match p with
  | Installation => InstallationTokenRequest
  | ClientCredentials => SpotifyTokenRequest
  end.

Definition refresh_response (p : provider) (e : env) : response :=
  match p with
  | Installation => installation_token_response e
  | ClientCredentials => spotify_token_response e
  end.

Definition store (p : provider) (e : env) (r : response) : M json :=
  match p with
  | Installation => github_store e r
  | ClientCredentials => spotify_store e r
  end.

Definition get_token (p : provider) (e : env) : M json :=
  match p with
  | Installation => get_github_token e
  | ClientCredentials => get_spotify_token e
  end.

(** The token is fresh for a caller that reads the clock at [check_time]. *)
Definition fresh (p : provider) (e : env) (w : world) : bool :=
  Qgtb (cached_expiry p w - margin p) (check_time p e).

(** One move of one caller on the shared world. *)
Definition caller_step (p : provider) (e : env) (c : caller) (w : world)
  : caller * world :=
  match c with
  | Start =>
      if fresh p e w
      then (Done (rbind (Json.slice_check (cached_token p w))
                        (fun _ => Ok (cached_token p w))), w)
      else (Refreshing, w)
  | Refreshing => (Received (refresh_response p e), log_call (refresh_request p) w)
  | Received r => let (out, w') := store p e r w in (Done out, w')
  | Done out => (Done out, w)
  end.

Record system : Type := mkSystem {
  shared : world;
  callers : list caller
}.

Fixpoint set_nth {A} (i : nat) (x : A) (l : list A) : list A :=
  match l, i with
  | [], _ => []
  | _ :: r, O => x :: r
  | y :: r, S i' => y :: set_nth i' x r
  end.

(** Caller [i] moves, with [e] as the outside. *)
Definition system_step (p : provider) (s : system) (m : nat * env) : system :=
  match nth_error (callers s) (fst m) with
  | Some c =>
      let (c', w') := caller_step p (snd m) c (shared s) in
      mkSystem w' (set_nth (fst m) c' (callers s))
  | None => s
  end.

Definition run (p : provider) (schedule : list (nat * env)) (s : system) : system :=
  fold_left (system_step p) schedule s.

Definition is_refresh (p : provider) (c : call) : bool :=
  match p, c with
  | Installation, InstallationTokenRequest => true
  | ClientCredentials, SpotifyTokenRequest => true
  | _, _ => false
  end.

(** How many refresh requests of provider [p] the world has seen. *)
Definition refreshes (p : provider) (w : world) : nat :=
  List.length (filter (is_refresh p) (calls w)).

(** A caller that runs alone: test, request, store. *)
Definition run_alone (p : provider) (e : env) (w : world) : caller * world :=
  let (c1, w1) := caller_step p e Start w in
  let (c2, w2) := caller_step p e c1 w1 in
  caller_step p e c2 w2.

(** ** Vocabulary of the statements *)

(** A query word is missing from a candidate when it is not a substring of
    it, letter case set aside. *)
Definition missing (full_title word : string) : bool :=
  negb (str_in (lower word) (lower full_title)).

Definition count_missing (words : list string) (full_title : string) : nat :=
  List.length (filter (missing full_title) words).


(** ** Sample inputs

    A Spotify search answer whose first track is exactly the pair, the
    answers of the two token exchanges, and two answers of the issue
    endpoint: one for a created issue, one for a refused call. *)

Definition spotify_hit (song artist : string) : json :=
  JObj [("tracks",
         JObj [("items",
                JArr [JObj [("name", JStr song);
                            ("artists", JArr [JObj [("name", JStr artist)]])]])])].

Definition sample_installation_token : response :=
  mkResponse 201 (Some (JObj [("token", JStr "ghs_sample");
                              ("expires_at", JStr "2020-01-01T01:00:00Z")])).

Definition sample_strptime (s : string) : option Q :=
  if String.eqb s "2020-01-01T01:00:00Z" then Some 1577840400%Q else None.

Definition sample_spotify_token : response :=
  mkResponse 200 (Some (JObj [("access_token", JStr "BQ_sample");
                              ("token_type", JStr "Bearer");
                              ("expires_in", JNum 3600)])).

Definition issue_created : response :=
  mkResponse 201 (Some (JObj [("html_url",
      JStr "https://github.com/SwagLyrics/SwagLyrics-For-Spotify/issues/1")])).

Definition issue_refused : response :=
  mkResponse 401 (Some (JObj [("message", JStr "Bad credentials");
                              ("documentation_url", JStr "https://developer.github.com/v3")])).

(** The outside of a request made at 2020-01-01T00:00:00Z for a pair that
    Spotify knows, with [issue] as the issue endpoint's answer. *)
Definition sample_env (song artist : string) (issue : response) : env :=
  mkEnv 1577836800 sample_installation_token sample_strptime issue
        1577836800 sample_spotify_token 1577836801
        (mkResponse 200 (Some (spotify_hit song artist)))
        "sample-stripper".

(** A webhook payload for a closed issue of the tracked repository that
    carries the label of unsupported songs. *)
Definition closed_issue_payload (title : string) : json :=
  JObj [("action", JStr "closed");
        ("issue", JObj [("title", JStr title);
                        ("labels", JArr [JObj [("name", JStr "unsupported song")]])]);
        ("repository", JObj [("name", JStr "SwagLyrics-For-Spotify")])].

(** One move of each of the callers [0 .. k-1], in order, and the schedule
    in which [k] callers all test the expiry, then all send their request,
    then all store their answer. *)
Definition each_caller (k : nat) (e : env) : list (nat * env) :=
  map (fun i => (i, e)) (seq 0 k).

Definition overlapped (k : nat) (e : env) : list (nat * env) :=
  (each_caller k e ++ each_caller k e ++ each_caller k e)%list.

Definition is_done (c : caller) : bool :=
  match c with Done _ => true | _ => false end.

(** ** Vocabulary of the ledger's statements *)

Definition not_CR (c : ascii) : bool := negb (Ascii.eqb c CR).
Definition not_LF (c : ascii) : bool := negb (Ascii.eqb c LF).

(** No CR, and neither CR nor LF, in a string. *)
Definition no_CR (s : string) : bool := forallb_str not_CR s.
Definition no_LF (s : string) : bool := forallb_str not_LF s.
Definition no_line_break (s : string) : bool := no_CR s && no_LF s.

(** A text that is empty or ends with LF. *)
Fixpoint complete (s : string) : bool :=
  match s with
  | EmptyString => true
  | String c EmptyString => Ascii.eqb c LF
  | String _ r => complete r
  end.

(** How many of [lines] are [line]. *)
Definition count_line (line : string) (lines : list string) : nat :=
  List.length (filter (String.eqb line) lines).

(** [n] appends of a pair in a row. *)
Definition ledger_append_n (n : nat) (song artist content : string) : string :=
  Nat.iter n (ledger_append song artist) content.

(** A line that ends with its LF and holds no other. *)
Definition terminated_line (l : string) : Prop :=
  exists a, l = a ++ nl /\ no_LF a = true.

(** ** Requests served one after another *)

Record request : Type := mkRequest {
  req_env : env;
  req_song : string;
  req_artist : string;
  req_version : option string
}.

(** The world after [update] has served a request, and after it has served
    a list of requests in order. *)
Definition serve (w : world) (r : request) : world :=
  snd (update (req_env r) (req_song r) (req_artist r) (req_version r) w).

Definition serve_all (w : world) (rs : list request) : world :=
  fold_left serve rs w.

Definition is_issue (c : call) : bool :=
  match c with GithubCreateIssue _ _ _ => true | _ => false end.

Definition issue_calls (w : world) : list call := filter is_issue (calls w).

Definition is_issue_for (title : string) (c : call) : bool :=
  match c with
  | GithubCreateIssue _ t _ => String.eqb t title
  | _ => false
  end.

(** How many issues have been posted for the pair. *)
Definition issues_filed (song artist : string) (w : world) : nat :=
  List.length (filter (is_issue_for (issue_title song artist)) (issue_calls w)).

(** A handler leaves an observation of the world as it found it. *)
Definition preserves {A X} (obs : world -> X) (m : M A) : Prop :=
  forall w, obs (snd (m w)) = obs w.

(** ** Further vocabulary of the ledger *)

(** The lines [readlines] can yield: every line but the last ends with its
    only LF, and the last one either does too or is a non-empty text
    without LF. *)
Fixpoint proper_lines (ls : list string) : Prop :=
  match ls with
  | [] => True
  | l :: rest =>
      match rest with
      | [] => terminated_line l \/ (l <> "" /\ no_LF l = true)
      | _ :: _ => terminated_line l /\ proper_lines rest
      end
  end.

(** The lines of [content] that are not the line of the pair. *)
Definition other_lines (song artist content : string) : list string :=
  filter (fun l => negb (String.eqb (pair_line song artist) l)) (readlines content).

(** ** Further vocabulary of the title matcher *)

(** One of a-z, A-Z, 0-9. *)
Definition is_alnum (c : ascii) : bool :=
  is_lower_az c || is_upper_az c || is_digit c.

Definition all_alnum (s : string) : bool := forallb_str is_alnum s.

Definition no_alnum (s : string) : bool :=
  forallb_str (fun c => negb (is_alnum c)) s.

(** ** The lyrics search (lines 46, 128-176 and 348-362) *)

(** The class [[-a-zA-Z0-9]] of [gstr]. *)
Definition gstr_class (c : ascii) : bool :=
  Ascii.eqb c "-" || is_lower_az c || is_upper_az c || is_digit c.

(** [$]: the end of the text, or the LF that ends it. *)
Definition at_end (s : string) : bool :=
  match s with
  | EmptyString => true
  | String c EmptyString => Ascii.eqb c LF
  | _ => false
  end.

(** The lookahead [(?=-lyrics$)]. *)
Definition gstr_lookahead (s : string) : bool :=
  String.prefix "-lyrics" s && at_end (drop 7 s).

(** Greedy [[-a-zA-Z0-9]+] followed by the lookahead: the longest
    non-empty run of the class after which the lookahead holds. *)
Fixpoint gstr_run (s : string) : option string :=
  match s with
  | EmptyString => None
  | String c r =>
      if gstr_class c then
        match gstr_run r with
        | Some g => Some (String c g)
        | None => if gstr_lookahead r then Some (String c "") else None
        end
      else None
  end.

(** [gstr = (?<=/)[-a-zA-Z0-9]+(?=-lyrics$)], used as [gstr.search(path)]
    and [.group()]: the match at the first position that follows a [/]
    and from which the run matches.  [after_slash] says whether the
    character before the current position is a [/]. *)
Fixpoint gstr_search_from (after_slash : bool) (s : string) : option string :=
  match (if after_slash then gstr_run s else None) with
  | Some g => Some g
  | None =>
      match s with
      | EmptyString => None
      | String c r => gstr_search_from (Ascii.eqb c "/") r
      end
  end.

Definition gstr_search (path : string) : option string :=
  gstr_search_from false path.

(** [v == n] for an integer [n] ([True == 1] and [False == 0] hold in
    Python). *)
Definition json_eq_int (v : json) (n : Z) : bool :=
  match v with
  | JNum m => (m =? n)%Z
  | JBool b => ((if b then 1 else 0) =? n)%Z
  | _ => false
  end.

Fixpoint chars_of (s : string) : list json :=
  match s with
  | EmptyString => []
  | String c r => JStr (String c "") :: chars_of r
  end.

(** What [for x in v] goes through: the items of a list, the keys of a
    dictionary, the characters of a string. *)
Definition json_iter (v : json) : result (list json) :=
  match v with
  | JArr items => Ok items
  | JObj fields => Ok (map (fun kv => JStr (fst kv)) fields)
  | JStr s => Ok (chars_of s)
  | _ => Raise TypeError
  end.

(** The loop over the hits (lines 158-173). *)
Fixpoint genius_hits (song artist : string) (hits : list json)
  : result (option string) :=
  match hits with
  | [] => Ok None
  | hit :: rest =>
      rbind (rbind (Json.getitem hit "result") (fun res =>
             Json.getitem res "full_title")) (fun full_title =>
      match full_title with
      | JStr ft =>
          if genius_hit_accepted song artist ft then
            rbind (rbind (Json.getitem hit "result") (fun res =>
                   Json.getitem res "path")) (fun path =>
            match path with
            | JStr p =>
                match gstr_search p with
                | Some stripper => Ok (Some stripper)
                | None => genius_hits song artist rest
                end
            | _ => Raise TypeError
            end)
          else genius_hits song artist rest
      | _ => Raise TypeError
      end)
  end.

(** [genius_stripper], given the answer [r] of the search request. *)
Definition genius_stripper (r : response) (song artist : string)
  : result (option string) :=
  if (status_code r =? 200)%Z then
    rbind (response_json r) (fun data =>
    rbind (rbind (Json.getitem data "meta") (fun meta =>
           Json.getitem meta "status")) (fun status =>
    if json_eq_int status 200 then
      rbind (rbind (rbind (Json.getitem data "response") (fun resp =>
                    Json.getitem resp "hits")) json_iter) (fun hits =>
      genius_hits song artist hits)
    else Ok None))
  else Ok None.

(** [/stripper]: [stored] is the stripper of the first row that the query
    on the table finds for the pair, if any; the answer is a body and a
    status. *)
Definition get_stripper (stored : option string) (r : response)
           (song artist : string) : result (string * Z) :=
  match stored with
  | Some stripper => Ok (stripper, 200%Z)
  | None =>
      rbind (genius_stripper r song artist) (fun g =>
      match g with
      | Some stripper =>
          if is_empty stripper then Ok ("", 404%Z) else Ok (stripper, 200%Z)
      | None => Ok ("", 404%Z)
      end)
  end.

(** A Genius answer with the given hits, each a full title and a path. *)
Definition genius_hit (full_title path : string) : json :=
  JObj [("result", JObj [("full_title", JStr full_title); ("path", JStr path)])].

Definition genius_answer (hits : list json) : response :=
  mkResponse 200 (Some (JObj [("meta", JObj [("status", JNum 200)]);
                              ("response", JObj [("hits", JArr hits)])])).

(** A hit the loop passes over: its title is rejected, or its path has no
    match of [gstr]. *)
Definition passed_over (song artist : string) (hit : json) : Prop :=
  exists res ft,
    Json.getitem hit "result" = Ok res
    /\ Json.getitem res "full_title" = Ok (JStr ft)
    /\ (genius_hit_accepted song artist ft = false
        \/ exists p, Json.getitem res "path" = Ok (JStr p) /\ gstr_search p = None).

(** ** The routes behind the password (lines 365-378 and 389-397) *)

(** What a route sends back: a text, or the error page of [abort(code)]. *)
Inductive reply : Type :=
| Sent (text : string)
| Aborted (code : Z).

(** A row of the table [all_strippers], as handed to the session. *)
Record lyrics_row : Type := mkRow {
  row_song : string;
  row_artist : string;
  row_stripper : string
}.

(** [/delete_unsupported]; [passwd] is the module's [passwd]. *)
Definition delete_line (passwd auth song artist : string) : M reply :=
  if negb (String.eqb auth passwd) then ret (Aborted 403)
  else
    cnt <- del_line song artist ;;
    ret (Sent ("Removed " ++ str_of_nat cnt ++ " instances of " ++ song ++ " by "
               ++ artist ++ " from unsupported.txt successfully.")).

(** [/add_stripper]; [table] is the rows added so far. *)
Definition add_stripper (passwd auth song artist stripper : string)
           (table : list lyrics_row) : M (reply * list lyrics_row) :=
  if negb (String.eqb auth passwd) then ret (Aborted 403, table)
  else
    let table' := (table ++ [mkRow song artist stripper])%list in
    cnt <- del_line song artist ;;
    ret (Sent ("Added stripper for " ++ song ++ " by " ++ artist
               ++ " to server database successfully, deleted " ++ str_of_nat cnt
               ++ " instances from " ++ "unsupported.txt"),
         table').

(** ** The deploy webhook and its notification (lines 267-297, 451-486) *)

(** [s.split('\n')[0]]. *)
Fixpoint first_line (s : string) : string :=
  match s with
  | EmptyString => EmptyString
  | String c r => if Ascii.eqb c LF then EmptyString else String c (first_line r)
  end.

(** The JSON body that [discord_deploy] posts (lines 272-291). *)
Definition discord_embed (payload : json) : result json :=
  rbind (Json.getitem payload "head_commit") (fun head_commit =>
  rbind (Json.getitem head_commit "author") (fun author =>
  rbind (Json.getitem head_commit "message") (fun message =>
  rbind (match message with
         | JStr m => Ok (first_line m)
         | _ => Raise AttributeError
         end) (fun title =>
  rbind (Json.getitem head_commit "id") (fun id =>
  rbind (Json.getitem head_commit "url") (fun url =>
  rbind (Json.getitem head_commit "timestamp") (fun timestamp =>
  rbind (Json.getitem author "name") (fun name =>
  rbind (Json.getitem author "username") (fun username =>
  Ok (JObj [("embeds", JArr [JObj [
        ("title", JStr title);
        ("description",
         JStr ("Updated [PythonAnywhere server](https://api.swaglyrics.dev) to commit "
               ++ "`" ++ PyRepr.str id ++ "`."));
        ("url", url);
        ("thumbnail",
         JObj [("url", JStr "https://avatars2.githubusercontent.com/u/48502066?v=4")]);
        ("timestamp", timestamp);
        ("color", JNum 1501879);
        ("author",
         JObj [("name", name);
               ("url", JStr ("https://github.com/" ++ PyRepr.str username));
               ("icon_url",
                JStr ("https://github.com/" ++ PyRepr.str username ++ ".png"))])]])])))))))))).

(** What the deploy webhook does outside the process. *)
Inductive deploy_action : Type :=
| GitPull
| DiscordPost (body : json).

Definition nothing_pulled : string :=
  msg_json "Didn't pull any information from remote!".

Definition updated_text (commit_hash : string) : string :=
  "Updated PythonAnywhere server to commit " ++ commit_hash.

(** [/update_server]; [pull_info] is what [origin.pull()] returns, each
    entry with its [flags] and its commit's [hexsha].  The result comes
    with the actions taken, in order. *)
Definition update_webhook (method : string) (event : option string)
           (payload : json) (pull_info : list (Z * string))
  : result string * list deploy_action :=
  if negb (String.eqb method "POST") then (Ok "OK", [])
  else
    match event with
    | Some "ping" => (Ok (msg_json "Hi!"), [])
    | Some "push" =>
        match Json.getitem payload "ref" with
        | Raise x => (Raise x, [])
        | Ok ref =>
            if negb (Json.eq_str ref "refs/heads/master")
            then (Ok (msg_json "Not master; ignoring"), [])
            else
              match pull_info with
              | [] => (Ok nothing_pulled, [GitPull])
              | (flags, commit_hash) :: _ =>
                  if (128 <? flags)%Z then (Ok nothing_pulled, [GitPull])
                  else
                    match Json.getitem payload "after" with
                    | Raise x => (Raise x, [GitPull])
                    | Ok after =>
                        if Json.eq_str after commit_hash then
                          match discord_embed payload with
                          | Ok body =>
                              (Ok (updated_text commit_hash),
                               [GitPull; DiscordPost body])
                          | Raise x => (Raise x, [GitPull])
                          end
                        else (Ok (updated_text commit_hash), [GitPull])
                    end
              end
        end
    | _ => (Ok (msg_json "Wrong event type"), [])
    end.

(** The title of the first embed of a posted body. *)
Definition embed_title (body : json) : result json :=
  rbind (Json.getitem body "embeds") (fun embeds =>
  rbind (Json.getitem0 embeds) (fun embed =>
  Json.getitem embed "title")).

(** A push event for a commit, as GitHub sends it. *)
Definition push_payload (ref sha message : string) : json :=
  JObj [("ref", JStr ref);
        ("after", JStr sha);
        ("head_commit",
         JObj [("id", JStr sha);
               ("message", JStr message);
               ("url", JStr ("https://github.com/SwagLyrics/swaglyrics-issue-maker/commit/" ++ sha));
               ("timestamp", JStr "2020-01-01T00:00:00Z");
               ("author", JObj [("name", JStr "A"); ("username", JStr "a")])])].
(** * Properties *)

(** ** The embedding at work *)

Example split_words : split "  Hello  World by	X " = ["Hello"; "World"; "by"; "X"].
Proof. reflexivity. Qed.

Example lower_words : lower "Test SONG 2" = "test song 2".
Proof. reflexivity. Qed.

Example read_lines :
  lines_of (universal_newlines ("a" ++ String CR nl ++ "b" ++ String CR "c"))
  = ["a" ++ nl; "b" ++ nl; "c"].
Proof. reflexivity. Qed.

Example wdt_is_greedy :
  Re.match_wdt "Stand by Me by Ben E. King unsupported."
  = Some ("Stand by Me", "Ben E. King")
  /\ Re.match_wdt "X by Y unsupported" = None
  /\ Re.match_wdt " by Y unsupported." = None.
Proof. repeat split. Qed.

Example genius_words_stripped :
  genius_words "Hello, World!" "AC/DC" = ["Hello"; "World"; "by"; "ACDC"]
  /\ genius_max_err "Hello, World!" "AC/DC" = 2.
Proof. split; reflexivity. Qed.

Example update_files_and_logs :
  let e := sample_env "Test Song 2" "Test Artist" issue_created in
  update e "Test Song 2" "Test Artist" (Some "1.1.1") (initial_world "")
  = (Ok (created_text "Test Song 2" "Test Artist"
           (JStr "https://github.com/SwagLyrics/SwagLyrics-For-Spotify/issues/1")),
     mkWorld (JStr "ghs_sample") 1577840400 (JStr "BQ_sample") (1577836801 + 3600)
             ("Test Song 2 by Test Artist" ++ nl)
             [SpotifyTokenRequest;
              SpotifySearch (JStr "BQ_sample") "Test Song 2 Test Artist";
              InstallationTokenRequest;
              GithubCreateIssue (JStr "ghs_sample")
                "Test Song 2 by Test Artist unsupported."
                (issue_text "sample-stripper" "1.1.1")]).
Proof. reflexivity. Qed.

(** ** Strings *)

Section StringFacts.

Lemma append_nil_r (s : string) : s ++ "" = s.
Proof. induction s as [|c r IH]; simpl; congruence. Qed.

Lemma append_assoc (a b c : string) : (a ++ b) ++ c = a ++ (b ++ c).
Proof. induction a as [|x r IH]; simpl; congruence. Qed.

Lemma prefix_iff (n h : string) :
  String.prefix n h = true <-> exists q, h = n ++ q.
Proof.
  revert h; induction n as [|c n IH]; intros h.
  - simpl. destruct h; split; eauto.
  - destruct h as [|d h]; simpl.
    + split; [discriminate | intros [q Hq]; simpl in Hq; discriminate].
    + destruct (ascii_dec c d) as [->|Hne].
      * rewrite IH. split; intros [q Hq]; exists q; simpl in *; congruence.
      * split; [discriminate | intros [q Hq]; simpl in Hq; congruence].
Qed.

Lemma prefix_app (n q : string) : String.prefix n (n ++ q) = true.
Proof. apply prefix_iff; eauto. Qed.

Lemma str_in_nil (n : string) : str_in n "" = String.prefix n "".
Proof. unfold str_in. now destruct (String.prefix n ""). Qed.

Lemma str_in_cons (n : string) (c : ascii) (h : string) :
  str_in n (String c h)
  = if String.prefix n (String c h) then true else str_in n h.
Proof. reflexivity. Qed.

Lemma str_in_iff (n h : string) :
  str_in n h = true <-> exists p q, h = p ++ n ++ q.
Proof.
  induction h as [|c h IH].
  - rewrite str_in_nil, prefix_iff. split.
    + intros [q Hq]. exists "", q. exact Hq.
    + intros (p & q & H). destruct p; simpl in H; [eauto | discriminate].
  - rewrite str_in_cons. destruct (String.prefix n (String c h)) eqn:E.
    + split; auto. intros _. apply prefix_iff in E. destruct E as [q Hq].
      exists "", q. exact Hq.
    + rewrite IH. split.
      * intros (p & q & ->). exists (String c p), q. reflexivity.
      * intros (p & q & H). destruct p as [|d p]; simpl in H.
        -- assert (String.prefix n (String c h) = true) by (apply prefix_iff; eauto).
           congruence.
        -- injection H as _ ->. eauto.
Qed.

Lemma str_in_app (n p q : string) : str_in n (p ++ n ++ q) = true.
Proof. apply str_in_iff; eauto. Qed.

Lemma str_in_extend (n h p q : string) :
  str_in n h = true -> str_in n (p ++ h ++ q) = true.
Proof.
  rewrite !str_in_iff. intros (a & b & ->).
  exists (p ++ a), (b ++ q). now rewrite !append_assoc.
Qed.

Lemma lower_app (a b : string) : lower (a ++ b) = lower a ++ lower b.
Proof. induction a as [|c r IH]; simpl; congruence. Qed.

Lemma filter_str_app (p : ascii -> bool) (a b : string) :
  filter_str p (a ++ b) = filter_str p a ++ filter_str p b.
Proof.
  induction a as [|c r IH]; simpl; auto.
  destruct (p c); simpl; congruence.
Qed.

Lemma forallb_str_app (p : ascii -> bool) (a b : string) :
  forallb_str p (a ++ b) = forallb_str p a && forallb_str p b.
Proof.
  induction a as [|c r IH]; simpl; auto.
  rewrite IH. now rewrite andb_assoc.
Qed.

Lemma filter_str_all (p : ascii -> bool) (s : string) :
  forallb_str p (filter_str p s) = true.
Proof.
  induction s as [|c r IH]; simpl; auto.
  destruct (p c) eqn:E; simpl; auto. now rewrite E.
Qed.

End StringFacts.

(** ** The title matcher *)

Section TitleMatcher.

Lemma is_title_mismatched_from_spec (words : list string) (full_title : string)
      (max_err : nat) :
  forall err_cnt, err_cnt <= max_err ->
    is_title_mismatched_from err_cnt words full_title max_err
    = Nat.ltb max_err (err_cnt + count_missing words full_title).
Proof.
  unfold count_missing.
  induction words as [|w ws IH]; intros e He; simpl.
  - rewrite Nat.add_0_r. symmetry. apply Nat.ltb_ge. exact He.
  - fold (missing full_title w). destruct (missing full_title w); simpl.
    + destruct (Nat.ltb max_err (S e)) eqn:E.
      * symmetry. apply Nat.ltb_lt. apply Nat.ltb_lt in E. lia.
      * apply Nat.ltb_ge in E. rewrite IH by lia. f_equal. lia.
    + apply IH. exact He.
Qed.

Lemma is_title_mismatched_spec (words : list string) (full_title : string)
      (max_err : nat) :
  is_title_mismatched words full_title max_err
  = Nat.ltb max_err (count_missing words full_title).
Proof.
  unfold is_title_mismatched.
  now rewrite is_title_mismatched_from_spec by lia.
Qed.

Lemma count_missing_app (a b : list string) (full_title : string) :
  count_missing (a ++ b)%list full_title
  = count_missing a full_title + count_missing b full_title.
Proof. unfold count_missing. now rewrite filter_app, length_app. Qed.

Lemma count_missing_perm (a b : list string) (full_title : string) :
  Permutation a b -> count_missing a full_title = count_missing b full_title.
Proof.
  unfold count_missing. induction 1; simpl; auto.
  - destruct (missing full_title x); simpl; congruence.
  - destruct (missing full_title x), (missing full_title y); reflexivity.
  - congruence.
Qed.

Lemma count_missing_none (words : list string) (full_title : string) :
  Forall (fun w => str_in (lower w) (lower full_title) = true) words ->
  count_missing words full_title = 0.
Proof.
  unfold count_missing, missing. induction 1 as [|w ws Hw _ IH]; simpl; auto.
  now rewrite Hw.
Qed.

(** Text added around a candidate can only remove misses. *)
Lemma missing_extend (pre cand post w : string) :
  missing (pre ++ cand ++ post) w = true -> missing cand w = true.
Proof.
  unfold missing. rewrite !negb_true_iff. intros H.
  destruct (str_in (lower w) (lower cand)) eqn:E; auto.
  rewrite !lower_app in H. now rewrite str_in_extend in H by exact E.
Qed.

Lemma count_missing_extend (words : list string) (pre cand post : string) :
  count_missing words (pre ++ cand ++ post) <= count_missing words cand.
Proof.
  unfold count_missing. induction words as [|w ws IH]; simpl; auto.
  destruct (missing (pre ++ cand ++ post) w) eqn:E.
  - rewrite (missing_extend _ _ _ _ E). simpl. lia.
  - destruct (missing cand w); simpl; lia.
Qed.

(** C4.  The title matcher of [genius_stripper]: with [n] the number of
    words of the query title [song by artist] once every character other
    than a-z, A-Z, 0-9 and whitespace is removed, [max_err] is [n / 2]
    (integer division); a hit is rejected exactly when more than [max_err]
    query words are missing from its stripped title, so more than [max_err]
    misses reject it and a candidate that holds every query word is
    accepted, whatever else surrounds the words and in whatever order the
    words are listed; and the loop answers as soon as the count passes
    [max_err], whatever words follow. *)
Theorem title_matcher_half_rule (song artist full_title : string) :
  let words := genius_words song artist in
  let n := List.length words in
  let cand := Re.sub_alg full_title in
  words = split (filter_str Re.alg_keeps (song ++ " by " ++ artist))
  /\ genius_max_err song artist = n / 2
  /\ genius_hit_accepted song artist full_title
     = negb (Nat.ltb (n / 2) (count_missing words cand))
  /\ (n / 2 < count_missing words cand ->
      genius_hit_accepted song artist full_title = false)
  /\ (Forall (fun w => str_in (lower w) (lower cand) = true) words ->
      genius_hit_accepted song artist full_title = true)
  /\ (genius_hit_accepted song artist full_title = true ->
      forall pre post,
        genius_hit_accepted song artist (pre ++ full_title ++ post) = true)
  /\ (forall words', Permutation words words' ->
        is_title_mismatched words' cand (n / 2)
        = is_title_mismatched words cand (n / 2))
  /\ (forall seen rest max_err,
        is_title_mismatched seen cand max_err = true ->
        is_title_mismatched (seen ++ rest)%list cand max_err = true).
Proof.
  intros words n cand.
  assert (Hacc : forall ft, genius_hit_accepted song artist ft
                 = negb (Nat.ltb (n / 2) (count_missing words (Re.sub_alg ft)))).
  { intros ft. unfold genius_hit_accepted, genius_max_err.
    now rewrite is_title_mismatched_spec. }
  repeat split.
  - apply Hacc.
  - intros H. rewrite Hacc. apply Nat.ltb_lt in H. fold cand. now rewrite H.
  - intros H. rewrite Hacc. fold cand. now rewrite (count_missing_none _ _ H).
  - intros H pre post. rewrite Hacc in *.
    apply negb_true_iff in H. apply Nat.ltb_ge in H.
    apply negb_true_iff. apply Nat.ltb_ge.
    unfold Re.sub_alg in *. rewrite !filter_str_app.
    etransitivity; [apply count_missing_extend | exact H].
  - intros words' HP. rewrite !is_title_mismatched_spec.
    now rewrite (count_missing_perm _ _ _ HP).
  - intros seen rest m. rewrite !is_title_mismatched_spec, count_missing_app.
    rewrite !Nat.ltb_lt. lia.
Qed.

Lemma title_matcher_half_rule_witness :
  genius_hit_accepted "Hello, World!" "AC/DC" "World Hello by ACDC (Remix)" = true
  /\ genius_hit_accepted "Hello, World!" "AC/DC" "Something else" = false.
Proof.
  split.
  - apply (proj1 (proj2 (proj2 (proj2 (proj2
             (title_matcher_half_rule "Hello, World!" "AC/DC"
                                      "World Hello by ACDC (Remix)")))))).
    vm_compute. repeat constructor.
  - apply (proj1 (proj2 (proj2 (proj2
             (title_matcher_half_rule "Hello, World!" "AC/DC" "Something else"))))).
    vm_compute. lia.
Defined.

End TitleMatcher.

(** ** Handlers that leave a part of the world alone *)

Lemma preserves_ret {A X} (obs : world -> X) (a : A) : preserves obs (ret a).
Proof. intros w; reflexivity. Qed.

Lemma preserves_lift {A X} (obs : world -> X) (r : result A) :
  preserves obs (lift r).
Proof. intros w; reflexivity. Qed.

Lemma preserves_get {X} (obs : world -> X) : preserves obs get.
Proof. intros w; reflexivity. Qed.

Lemma preserves_modify {X} (obs : world -> X) (f : world -> world) :
  (forall w, obs (f w) = obs w) -> preserves obs (modify f).
Proof. intros H w; apply H. Qed.

Lemma preserves_bind {A B X} (obs : world -> X) (m : M A) (k : A -> M B) :
  preserves obs m -> (forall a, preserves obs (k a)) -> preserves obs (bind m k).
Proof.
  intros Hm Hk w. unfold bind. specialize (Hm w).
  destruct (m w) as [[a|x] w1]; simpl in *; auto.
  now rewrite Hk.
Qed.

Lemma preserves_catch {A X} (obs : world -> X) (m : M A) (handles : exn -> bool)
      (h : M A) :
  preserves obs m -> preserves obs h -> preserves obs (catch m handles h).
Proof.
  intros Hm Hh w. unfold catch. specialize (Hm w).
  destruct (m w) as [[a|x] w1]; simpl in *; auto.
  destruct (handles x); simpl; auto. now rewrite Hh.
Qed.

Lemma issue_calls_log (c : call) (w : world) :
  issue_calls (log_call c w)
  = (issue_calls w ++ (if is_issue c then [c] else []))%list.
Proof.
  unfold issue_calls, log_call. cbn [calls]. rewrite filter_app. cbn [filter].
  now destruct (is_issue c).
Qed.

Ltac quiet :=
  repeat first
    [ apply preserves_ret | apply preserves_lift | apply preserves_get
    | apply preserves_modify; intros ?;
      first [ reflexivity | rewrite issue_calls_log; apply app_nil_r ]
    | apply preserves_bind; [|intros ?]
    | apply preserves_catch
    | match goal with
      | |- preserves _ (if ?b then _ else _) => destruct b
      | |- preserves _ (match ?x with _ => _ end) => destruct x
      end ].

(** ** The resolver *)

Section Resolver.

Lemma get_github_token_ledger (e : env) : preserves unsupported_txt (get_github_token e).
Proof. unfold get_github_token, github_store. quiet. Qed.

Lemma get_spotify_token_ledger (e : env) : preserves unsupported_txt (get_spotify_token e).
Proof. unfold get_spotify_token, spotify_store. quiet. Qed.

Lemma check_song_ledger (e : env) (song artist : string) :
  preserves unsupported_txt (check_song e song artist).
Proof.
  unfold check_song. apply preserves_bind; [apply get_spotify_token_ledger|intros ?].
  quiet.
Qed.

Lemma create_issue_ledger (e : env) (song artist version stripper : string) :
  preserves unsupported_txt (create_issue e song artist version stripper).
Proof.
  unfold create_issue. apply preserves_bind; [apply get_github_token_ledger|intros ?].
  quiet.
Qed.

(** The request reaches the legitimacy check: the version passes, the
    ledger's text does not hold the pair and the pair is not made of
    letters and whitespace only. *)
Lemma update_reaches_check (e : env) (song artist version : string) (w : world) :
  String.ltb version "1.1.1" = false ->
  ledger_contains song artist (unsupported_txt w) = false ->
  Re.fullmatch_asrg song && Re.fullmatch_asrg artist = false ->
  update e song artist (Some version) w
  = match check_song e song artist w with
    | (Ok true, w1) =>
        let w2 := set_unsupported_txt (ledger_append song artist (unsupported_txt w1)) w1 in
        match create_issue e song artist version (stripped e) w2 with
        | (Ok issue, w3) =>
            (Ok (if (fst issue =? 201)%Z
                 then created_text song artist (snd issue)
                 else logged_text song artist), w3)
        | (Raise x, w3) => (Raise x, w3)
        end
    | (Ok false, w1) => (Ok fishy_text, w1)
    | (Raise x, w1) => (Raise x, w1)
    end.
Proof.
  intros Hv Hc Ht. unfold update. rewrite Hv.
  unfold bind at 1. unfold get at 1.
  unfold ledger_contains, pair_text in Hc. rewrite Hc, Ht.
  unfold bind at 1.
  destruct (check_song e song artist w) as [[[|]|x] w1]; auto.
  unfold bind at 1. unfold modify at 1.
  unfold bind at 1. unfold ledger_append, pair_line, pair_text.
  rewrite !append_assoc.
  destruct (create_issue _ _ _ _ _ _) as [[issue|x] w3]; auto.
  destruct (fst issue =? 201)%Z; reflexivity.
Qed.

(** C7.  A request whose version compares below ['1.1.1'] is answered with
    the update prompt, and nothing else happens: the tokens, the ledger and
    the log of outbound calls are as before (no append, no issue
    creation).  The same holds when the form carries no version. *)
Theorem update_below_floor (e : env) (song artist version : string) (w : world) :
  String.ltb version "1.1.1" = true ->
  update e song artist (Some version) w = (Ok update_text, w)
  /\ unsupported_txt (snd (update e song artist (Some version) w)) = unsupported_txt w
  /\ calls (snd (update e song artist (Some version) w)) = calls w
  /\ update e song artist None w = (Ok update_text, w).
Proof.
  intros Hv. unfold update. rewrite Hv. repeat split.
Qed.

Lemma update_below_floor_witness :
  update (sample_env "abc" "def" issue_created) "abc" "def" (Some "1.0.0")
         (initial_world ("X by Y" ++ nl))
  = (Ok update_text, initial_world ("X by Y" ++ nl)).
Proof.
  exact (proj1 (update_below_floor (sample_env "abc" "def" issue_created)
                                   "abc" "def" "1.0.0"
                                   (initial_world ("X by Y" ++ nl)) eq_refl)).
Defined.



(** A pair made of letters and whitespace only is turned away before the
    legitimacy check. *)
Lemma update_trivial_pair (e : env) (song artist version : string) (w : world) :
  String.ltb version "1.1.1" = false ->
  ledger_contains song artist (unsupported_txt w) = false ->
  Re.fullmatch_asrg song && Re.fullmatch_asrg artist = true ->
  update e song artist (Some version) w = (Ok (may_not_exist_text song artist), w).
Proof.
  intros Hv Hc Ht. unfold update. rewrite Hv. unfold bind, get.
  unfold ledger_contains, pair_text in Hc. now rewrite Hc, Ht.
Qed.

(** A pair that fails the legitimacy check leaves the ledger alone. *)
Lemma update_fishy (e : env) (song artist version : string) (w w1 : world) :
  String.ltb version "1.1.1" = false ->
  ledger_contains song artist (unsupported_txt w) = false ->
  Re.fullmatch_asrg song && Re.fullmatch_asrg artist = false ->
  check_song e song artist w = (Ok false, w1) ->
  update e song artist (Some version) w = (Ok fishy_text, w1)
  /\ unsupported_txt w1 = unsupported_txt w.
Proof.
  intros Hv Hc Ht Hs. rewrite update_reaches_check by assumption. rewrite Hs.
  split; auto. pose proof (check_song_ledger e song artist w) as H.
  now rewrite Hs in H.
Qed.

(** A confirmed pair: its line is appended, whatever the issue call
    yields, and the issue is posted once the installation token is at
    hand. *)
Lemma update_confirmed_pair (e : env) (song artist version : string)
      (w w1 : world) :
  String.ltb version "1.1.1" = false ->
  ledger_contains song artist (unsupported_txt w) = false ->
  Re.fullmatch_asrg song && Re.fullmatch_asrg artist = false ->
  check_song e song artist w = (Ok true, w1) ->
  let w2 := set_unsupported_txt
              (ledger_append song artist (unsupported_txt w1)) w1 in
  let w' := snd (update e song artist (Some version) w) in
  unsupported_txt w' = unsupported_txt w ++ pair_line song artist
  /\ (forall tok w3,
        get_github_token e w2 = (Ok tok, w3) ->
        calls w' = (calls w3 ++
                    [GithubCreateIssue tok (issue_title song artist)
                       (issue_text (stripped e) version)])%list).
Proof.
  intros Hv Hc Ht Hs w2 w'.
  assert (Hw1 : unsupported_txt w1 = unsupported_txt w).
  { pose proof (check_song_ledger e song artist w) as H. now rewrite Hs in H. }
  assert (Hw2 : unsupported_txt w2 = unsupported_txt w ++ pair_line song artist).
  { subst w2. simpl. unfold ledger_append. now rewrite Hw1. }
  subst w'. rewrite update_reaches_check by assumption. rewrite Hs.
  fold w2. split.
  - rewrite <- Hw2.
    rewrite <- (create_issue_ledger e song artist version (stripped e) w2).
    cbv zeta.
    now destruct (create_issue e song artist version (stripped e) w2)
      as [[issue|x] w3].
  - intros tok w3 Htok. cbv zeta. unfold create_issue, bind. rewrite Htok.
    unfold modify, lift, ret.
    destruct (rbind _ _) as [link|x]; reflexivity.
Qed.

Lemma update_fishy_witness :
  let e := sample_env "Some Other Song" "Test Artist" issue_created in
  update e "Test Song 2" "Test Artist" (Some "1.1.1") (initial_world "")
  = (Ok fishy_text,
     snd (check_song e "Test Song 2" "Test Artist" (initial_world "")))
  /\ unsupported_txt (snd (check_song e "Test Song 2" "Test Artist" (initial_world "")))
     = "".
Proof.
  exact (update_fishy (sample_env "Some Other Song" "Test Artist" issue_created)
                      "Test Song 2" "Test Artist" "1.1.1" (initial_world "") _
                      eq_refl eq_refl eq_refl eq_refl).
Defined.

(** C2, as the code has it.  With version ['1.1.1'], no entry for the pair
    in the ledger and a track provider that would confirm the pair, the
    request for "Test Song" by "Test Artist" is answered "may not exist"
    and changes nothing, because both names are made of letters and
    whitespace only.  A request for a pair that is not made of letters and
    whitespace only, whose version is not below the floor, which the
    ledger does not hold and which the track provider confirms, appends
    exactly the pair's line to the ledger, whatever the issue call yields,
    and, once the installation token is at hand, posts the issue for the
    pair. *)
Theorem update_files_confirmed_pair (e : env) (w : world) :
  (ledger_contains "Test Song" "Test Artist" (unsupported_txt w) = false ->
   update e "Test Song" "Test Artist" (Some "1.1.1") w
   = (Ok (may_not_exist_text "Test Song" "Test Artist"), w))
  /\ (forall song artist version w1,
        String.ltb version "1.1.1" = false ->
        ledger_contains song artist (unsupported_txt w) = false ->
        Re.fullmatch_asrg song && Re.fullmatch_asrg artist = false ->
        check_song e song artist w = (Ok true, w1) ->
        let w2 := set_unsupported_txt
                    (ledger_append song artist (unsupported_txt w1)) w1 in
        let w' := snd (update e song artist (Some version) w) in
        unsupported_txt w' = unsupported_txt w ++ pair_line song artist
        /\ (forall tok w3,
              get_github_token e w2 = (Ok tok, w3) ->
              calls w' = (calls w3 ++
                          [GithubCreateIssue tok (issue_title song artist)
                             (issue_text (stripped e) version)])%list)).
Proof.
  split.
  - intros Hc. now apply update_trivial_pair.
  - intros song artist version w1. apply update_confirmed_pair.
Qed.

Lemma update_files_confirmed_pair_witness :
  let e := sample_env "Test Song 2" "Test Artist" issue_created in
  let w' := snd (update e "Test Song 2" "Test Artist" (Some "1.1.1") (initial_world "")) in
  unsupported_txt w' = "Test Song 2 by Test Artist" ++ nl
  /\ In (GithubCreateIssue (JStr "ghs_sample") "Test Song 2 by Test Artist unsupported."
                           (issue_text "sample-stripper" "1.1.1")) (calls w').
Proof.
  pose proof (proj2 (update_files_confirmed_pair
                       (sample_env "Test Song 2" "Test Artist" issue_created)
                       (initial_world ""))
                    "Test Song 2" "Test Artist" "1.1.1" _
                    eq_refl eq_refl eq_refl eq_refl) as [Hl Hc].
  split.
  - exact Hl.
  - cbv zeta. erewrite Hc by reflexivity. apply in_or_app. right. left. reflexivity.
Defined.

(** The request of C2 itself: the provider would confirm the pair and the
    ledger is empty, yet nothing is appended and no call is made. *)
Lemma update_test_song_turned_away :
  let e := sample_env "Test Song" "Test Artist" issue_created in
  let w := initial_world "" in
  fst (check_song e "Test Song" "Test Artist" w) = Ok true
  /\ ledger_contains "Test Song" "Test Artist" (unsupported_txt w) = false
  /\ update e "Test Song" "Test Artist" (Some "1.1.1") w
     = (Ok (may_not_exist_text "Test Song" "Test Artist"), w)
  /\ unsupported_txt (snd (update e "Test Song" "Test Artist" (Some "1.1.1") w)) = ""
  /\ calls (snd (update e "Test Song" "Test Artist" (Some "1.1.1") w)) = [].
Proof. vm_compute. repeat split. Qed.

(** C1.  After a confirmed pair has been appended, an answer of the issue
    endpoint that carries no [html_url] (what the provider sends with its
    error statuses) makes [create_issue] raise [KeyError]: the exception
    leaves [update], whatever the status code, and the appended line
    stays. *)
Theorem update_issue_error_escapes (e : env) (song artist version : string)
        (w w1 w3 : world) (tok : json) (fields : list (string * json)) :
  String.ltb version "1.1.1" = false ->
  ledger_contains song artist (unsupported_txt w) = false ->
  Re.fullmatch_asrg song && Re.fullmatch_asrg artist = false ->
  check_song e song artist w = (Ok true, w1) ->
  get_github_token e (set_unsupported_txt
                        (ledger_append song artist (unsupported_txt w1)) w1)
  = (Ok tok, w3) ->
  body (github_issue_response e) = Some (JObj fields) ->
  Json.assoc "html_url" fields = None ->
  update e song artist (Some version) w
  = (Raise (KeyError "html_url"),
     log_call (GithubCreateIssue tok (issue_title song artist)
                                 (issue_text (stripped e) version)) w3)
  /\ unsupported_txt (snd (update e song artist (Some version) w))
     = unsupported_txt w ++ pair_line song artist.
Proof.
  intros Hv Hc Ht Hs Htok Hb Hk.
  pose proof (update_confirmed_pair e song artist version w w1
                                    Hv Hc Ht Hs) as [Hl _].
  split; [|exact Hl].
  rewrite update_reaches_check by assumption. rewrite Hs. cbv zeta.
  unfold create_issue, bind. rewrite Htok.
  unfold modify, lift, rbind, response_json. rewrite Hb. simpl. now rewrite Hk.
Qed.

Lemma update_issue_error_escapes_witness :
  let e := sample_env "Test Song 2" "Test Artist" issue_refused in
  let r := update e "Test Song 2" "Test Artist" (Some "1.1.1") (initial_world "") in
  fst r = Raise (KeyError "html_url")
  /\ unsupported_txt (snd r) = "Test Song 2 by Test Artist" ++ nl.
Proof.
  pose proof (update_issue_error_escapes
                (sample_env "Test Song 2" "Test Artist" issue_refused)
                "Test Song 2" "Test Artist" "1.1.1" (initial_world "") _ _ _ _
                eq_refl eq_refl eq_refl eq_refl eq_refl eq_refl eq_refl) as [H1 H2].
  cbv zeta. rewrite H1. split; [reflexivity | exact H2].
Defined.

(** The branch the route keeps for a failed creation is taken only when
    the answer still carries an [html_url]. *)
Lemma update_issue_not_created_logged (e : env) (song artist version : string)
      (w w1 w3 : world) (tok link : json) (fields : list (string * json)) :
  String.ltb version "1.1.1" = false ->
  ledger_contains song artist (unsupported_txt w) = false ->
  Re.fullmatch_asrg song && Re.fullmatch_asrg artist = false ->
  check_song e song artist w = (Ok true, w1) ->
  get_github_token e (set_unsupported_txt
                        (ledger_append song artist (unsupported_txt w1)) w1)
  = (Ok tok, w3) ->
  body (github_issue_response e) = Some (JObj fields) ->
  Json.assoc "html_url" fields = Some link ->
  status_code (github_issue_response e) <> 201%Z ->
  fst (update e song artist (Some version) w) = Ok (logged_text song artist)
  /\ unsupported_txt (snd (update e song artist (Some version) w))
     = unsupported_txt w ++ pair_line song artist.
Proof.
  intros Hv Hc Ht Hs Htok Hb Hk Hst.
  pose proof (update_confirmed_pair e song artist version w w1
                                    Hv Hc Ht Hs) as [Hl _].
  split; [|exact Hl].
  rewrite update_reaches_check by assumption. rewrite Hs. cbv zeta.
  unfold create_issue, bind. rewrite Htok.
  unfold modify, lift, rbind, response_json, ret. rewrite Hb. simpl. rewrite Hk.
  simpl. apply Z.eqb_neq in Hst. now rewrite Hst.
Qed.

End Resolver.

(** ** The webhook *)

Section Webhook.

(** What the handler reads from the payload of an [issues] event before it
    decides: the first label's name, the repository's name, the action and
    the issue's title. *)
Lemma github_webhook_closed_unsupported (payload issue labels l0 repo : json)
      (title : string) (w : world) :
  Json.getitem payload "issue" = Ok issue ->
  Json.getitem issue "labels" = Ok labels ->
  Json.getitem0 labels = Ok l0 ->
  Json.getitem l0 "name" = Ok (JStr "unsupported song") ->
  Json.getitem payload "repository" = Ok repo ->
  Json.getitem repo "name" = Ok (JStr "SwagLyrics-For-Spotify") ->
  Json.getitem payload "action" = Ok (JStr "closed") ->
  Json.getitem issue "title" = Ok (JStr title) ->
  github_webhook "POST" (Some "issues") payload w
  = match Re.match_wdt title with
    | None => (Raise AttributeError, w)
    | Some (song, artist) =>
        (Ok ("Deleted " ++ str_of_nat (fst (del_line_file song artist (unsupported_txt w)))
             ++ " instances from unsupported.txt"),
         set_unsupported_txt (snd (del_line_file song artist (unsupported_txt w))) w)
    end.
Proof.
  intros Hi Hl H0 Hn Hr Hrn Ha Ht.
  unfold github_webhook.
  cbn -[Json.getitem Json.getitem0 Re.match_wdt del_line str_of_nat append].
  unfold bind, catch, lift, ret, rbind.
  rewrite Hi, Hl, H0, Hn, Hr, Hrn, Ha.
  cbn -[Json.getitem Json.getitem0 Re.match_wdt del_line str_of_nat append].
  rewrite Ht.
  destruct (Re.match_wdt title) as [[song artist]|]; reflexivity.
Qed.

(** C3.  For an [issues] event with action [closed], first label
    [unsupported song] and the tracked repository, whose title the pattern
    [(.+) by (.+) unsupported.] does not match, the handler changes nothing
    but does not answer "not relevant": [title.group(1)] on the failed
    match raises [AttributeError], which leaves the handler. *)
Theorem github_webhook_unmatched_title_raises
        (payload issue labels l0 repo : json) (title : string) (w : world) :
  Json.getitem payload "issue" = Ok issue ->
  Json.getitem issue "labels" = Ok labels ->
  Json.getitem0 labels = Ok l0 ->
  Json.getitem l0 "name" = Ok (JStr "unsupported song") ->
  Json.getitem payload "repository" = Ok repo ->
  Json.getitem repo "name" = Ok (JStr "SwagLyrics-For-Spotify") ->
  Json.getitem payload "action" = Ok (JStr "closed") ->
  Json.getitem issue "title" = Ok (JStr title) ->
  Re.match_wdt title = None ->
  github_webhook "POST" (Some "issues") payload w = (Raise AttributeError, w)
  /\ fst (github_webhook "POST" (Some "issues") payload w) <> Ok not_relevant.
Proof.
  intros Hi Hl H0 Hn Hr Hrn Ha Ht Hm.
  rewrite (github_webhook_closed_unsupported _ _ _ _ _ _ w Hi Hl H0 Hn Hr Hrn Ha Ht).
  rewrite Hm. split; [reflexivity | discriminate].
Qed.

Lemma github_webhook_unmatched_title_raises_witness :
  github_webhook "POST" (Some "issues")
                 (closed_issue_payload "Lyrics missing for my favourite song")
                 (initial_world ("X by Y" ++ nl))
  = (Raise AttributeError, initial_world ("X by Y" ++ nl)).
Proof.
  apply (github_webhook_unmatched_title_raises
           (closed_issue_payload "Lyrics missing for my favourite song")
           _ _ _ _ "Lyrics missing for my favourite song" _
           eq_refl eq_refl eq_refl eq_refl eq_refl eq_refl eq_refl eq_refl eq_refl).
Defined.

(** The same event with a title of the expected form removes the pair. *)
Example github_webhook_matched_title :
  github_webhook "POST" (Some "issues") (closed_issue_payload "X by Y unsupported.")
                 (initial_world ("X by Y" ++ nl ++ "Z by W" ++ nl))
  = (Ok "Deleted 1 instances from unsupported.txt", initial_world ("Z by W" ++ nl)).
Proof. reflexivity. Qed.

(** A missing label is the case the handler does catch. *)
Example github_webhook_no_label :
  fst (github_webhook "POST" (Some "issues")
         (JObj [("action", JStr "closed");
                ("issue", JObj [("title", JStr "X by Y unsupported."); ("labels", JArr [])]);
                ("repository", JObj [("name", JStr "SwagLyrics-For-Spotify")])])
         (initial_world ""))
  = Ok not_relevant.
Proof. reflexivity. Qed.

End Webhook.

(** ** The credential caches *)

Section Credentials.

Lemma Qgtb_true (a b : Q) : Qgtb a b = true <-> (b < a)%Q.
Proof.
  unfold Qgtb. rewrite negb_true_iff. split.
  - intros H. apply Qnot_le_lt. intros Hle.
    apply Qle_bool_iff in Hle. congruence.
  - intros H. destruct (Qle_bool a b) eqn:E; auto.
    apply Qle_bool_iff in E. exfalso. exact (Qlt_not_le _ _ H E).
Qed.

Lemma Qgtb_false (a b : Q) : Qgtb a b = false <-> (a <= b)%Q.
Proof.
  unfold Qgtb. rewrite negb_false_iff. apply Qle_bool_iff.
Qed.

Lemma get_github_token_fresh (e : env) (w : world) (tok : string) :
  gh_token w = JStr tok ->
  (t_github_check e < gh_token_expiry w - 180)%Q ->
  get_github_token e w = (Ok (JStr tok), w).
Proof.
  intros Ht Hf. apply Qgtb_true in Hf.
  unfold get_github_token, bind, get. rewrite Hf, Ht. reflexivity.
Qed.

Lemma get_github_token_stale (e : env) (w : world) (doc : json)
      (tok ts : string) (x : Q) :
  (gh_token_expiry w - 180 <= t_github_check e)%Q ->
  body (installation_token_response e) = Some doc ->
  Json.getitem doc "token" = Ok (JStr tok) ->
  Json.getitem doc "expires_at" = Ok (JStr ts) ->
  strptime_timestamp e ts = Some x ->
  get_github_token e w
  = (Ok (JStr tok),
     set_gh_token_expiry x
       (set_gh_token (JStr tok) (log_call InstallationTokenRequest w))).
Proof.
  intros Hs Hb Ht He Hx. apply Qgtb_false in Hs.
  unfold get_github_token, github_store, bind, get, modify, lift, ret, response_json.
  rewrite Hs, Hb, Ht, He, Hx. reflexivity.
Qed.





End Credentials.

(** ** Overlapping callers of a credential cache *)

Section Overlap.

Variable p : provider.

Lemma run_alone_get_token (e : env) (w : world) :
  run_alone p e w = (Done (fst (get_token p e w)), snd (get_token p e w)).
Proof.
  unfold run_alone. cbn [caller_step].
  destruct p; unfold fresh, get_token, get_github_token, get_spotify_token,
    bind, get, modify, lift, ret; cbn [cached_expiry margin check_time cached_token].
  - destruct (Qgtb (gh_token_expiry w - 180) (t_github_check e)).
    + cbn [caller_step]. now destruct (Json.slice_check (gh_token w)) as [[]|].
    + cbn [caller_step store refresh_response refresh_request].
      now destruct (github_store e (installation_token_response e) _).
  - destruct (Qgtb (spotify_token_expiry w - 300) (t_spotify_check e)).
    + cbn [caller_step]. now destruct (Json.slice_check (spotify_token w)) as [[]|].
    + cbn [caller_step store refresh_response refresh_request].
      now destruct (spotify_store e (spotify_token_response e) _).
Qed.

(** Storing an answer makes no call, and what it returns depends on the
    answer alone. *)
Lemma store_calls (e : env) (r : response) (w : world) :
  calls (snd (store p e r w)) = calls w.
Proof.
  destruct p; unfold store, github_store, spotify_store, bind, modify, lift, ret;
    repeat (match goal with
            | |- context [match ?x with _ => _ end] => destruct x
            end; simpl); reflexivity.
Qed.

Lemma store_out (e : env) (r : response) (w w' : world) :
  fst (store p e r w) = fst (store p e r w').
Proof.
  destruct p; unfold store, github_store, spotify_store, bind, modify, lift, ret;
    repeat (match goal with
            | |- context [match ?x with _ => _ end] => destruct x
            end; simpl); reflexivity.
Qed.

Lemma refreshes_log (w : world) :
  refreshes p (log_call (refresh_request p) w) = S (refreshes p w).
Proof.
  unfold refreshes, log_call. simpl. rewrite filter_app, length_app.
  destruct p; simpl; lia.
Qed.

Lemma refreshes_store (e : env) (r : response) (w : world) :
  refreshes p (snd (store p e r w)) = refreshes p w.
Proof. unfold refreshes. now rewrite store_calls. Qed.

(** A caller alone on a stale token makes exactly one refresh request. *)
Lemma get_token_stale_refreshes (e : env) (w : world) :
  fresh p e w = false ->
  refreshes p (snd (get_token p e w)) = S (refreshes p w).
Proof.
  intros Hf.
  pose proof (run_alone_get_token e w) as H.
  unfold run_alone in H. cbn [caller_step] in H. rewrite Hf in H.
  cbn [caller_step] in H.
  destruct (store p e (refresh_response p e) (log_call (refresh_request p) w))
    as [out w'] eqn:E.
  injection H as _ <-.
  change w' with (snd (out, w')). rewrite <- E.
  now rewrite refreshes_store, refreshes_log.
Qed.

Lemma nth_error_repeat_app {A} (a b : A) (j n : nat) :
  nth_error (repeat a j ++ b :: repeat b n)%list j = Some b.
Proof. induction j; simpl; auto. Qed.

Lemma set_nth_repeat_app {A} (a b : A) (j n : nat) :
  set_nth j a (repeat a j ++ b :: repeat b n)%list
  = (repeat a (S j) ++ repeat b n)%list.
Proof. induction j; simpl; auto. now rewrite IHj. Qed.

(** All callers stand at [c] and each of them moves once: when a move from
    [c] leads to [c'] and acts on the world as [h], whatever the world is,
    they all reach [c'] and [h] is applied once per caller. *)
Lemma run_round (e : env) (c c' : caller) (h : world -> world) :
  (forall w, caller_step p e c w = (c', h w)) ->
  forall k j w,
    run p (map (fun i => (i, e)) (seq j k))
        (mkSystem w (repeat c' j ++ repeat c k)%list)
    = mkSystem (Nat.iter k h w) (repeat c' (j + k)).
Proof.
  intros Hstep. induction k as [|k IH]; intros j w.
  - simpl. now rewrite app_nil_r, Nat.add_0_r.
  - cbn [seq map run fold_left]. unfold system_step at 2.
    cbn [callers shared fst snd repeat].
    rewrite nth_error_repeat_app, Hstep, set_nth_repeat_app.
    fold (run p (map (fun i => (i, e)) (seq (S j) k))
              (mkSystem (h w) (repeat c' (S j) ++ repeat c k)%list)).
    rewrite IH. rewrite Nat.iter_succ_r. f_equal. f_equal. lia.
Qed.

Lemma run_each_caller (e : env) (c c' : caller) (h : world -> world) (k : nat)
      (w : world) :
  (forall w, caller_step p e c w = (c', h w)) ->
  run p (each_caller k e) (mkSystem w (repeat c k))
  = mkSystem (Nat.iter k h w) (repeat c' k).
Proof. intros H. exact (run_round e c c' h H k 0 w). Qed.

Lemma run_app (s1 s2 : list (nat * env)) (s : system) :
  run p (s1 ++ s2)%list s = run p s2 (run p s1 s).
Proof. unfold run. apply fold_left_app. Qed.

Lemma refreshes_iter_log (k : nat) (w : world) :
  refreshes p (Nat.iter k (log_call (refresh_request p)) w) = k + refreshes p w.
Proof. induction k; simpl; auto. now rewrite refreshes_log, IHk. Qed.

Lemma refreshes_iter_store (e : env) (r : response) (k : nat) (w : world) :
  refreshes p (Nat.iter k (fun w => snd (store p e r w)) w) = refreshes p w.
Proof. induction k; simpl; auto. now rewrite refreshes_store. Qed.

(** [k] callers that overlap on a stale token: [k] refresh requests. *)
Lemma overlapped_refreshes (k : nat) (e : env) (w : world) :
  fresh p e w = false ->
  let s := run p (overlapped k e) (mkSystem w (repeat Start k)) in
  refreshes p (shared s) = k + refreshes p w
  /\ forallb is_done (callers s) = true.
Proof.
  intros Hf s. subst s. unfold overlapped. rewrite !run_app.
  set (r := refresh_response p e).
  set (out := fst (store p e r w)).
  assert (H1 : run p (each_caller k e) (mkSystem w (repeat Start k))
               = mkSystem w (repeat Refreshing k)).
  { destruct k as [|k]; [reflexivity|].
    cbn [each_caller seq map run fold_left]. unfold system_step at 2.
    cbn [callers shared fst snd repeat nth_error caller_step set_nth].
    rewrite Hf.
    assert (G : forall n j, run p (map (fun i => (i, e)) (seq j n))
                  (mkSystem w (repeat Refreshing j ++ repeat Start n)%list)
                = mkSystem w (repeat Refreshing (j + n))).
    { induction n as [|n IH]; intros j.
      - simpl. now rewrite app_nil_r, Nat.add_0_r.
      - cbn [seq map run fold_left]. unfold system_step at 2.
        cbn [callers shared fst snd repeat].
        rewrite nth_error_repeat_app. cbn [caller_step]. rewrite Hf.
        rewrite set_nth_repeat_app.
        fold (run p (map (fun i => (i, e)) (seq (S j) n))
                  (mkSystem w (repeat Refreshing (S j) ++ repeat Start n)%list)).
        rewrite IH. f_equal. f_equal. lia. }
    exact (G k 1). }
  rewrite H1.
  rewrite (run_each_caller e Refreshing (Received r)
             (log_call (refresh_request p)) k w) by reflexivity.
  rewrite (run_each_caller e (Received r) (Done out)
             (fun w => snd (store p e r w)) k).
  - cbn [shared callers]. rewrite refreshes_iter_store, refreshes_iter_log.
    split; [reflexivity|]. clear. induction k; simpl; auto.
  - intros w'. cbn [caller_step]. unfold out.
    rewrite (store_out e r w w'). now destruct (store p e r w').
Qed.

(** While the token is fresh at every clock reading of the schedule, the
    world stays as it is, whoever moves. *)
Lemma fresh_schedule_idle (schedule : list (nat * env)) (w : world) :
  Forall (fun m => fresh p (snd m) w = true) schedule ->
  forall cs,
    forallb (fun c => match c with Start | Done _ => true | _ => false end) cs = true ->
    shared (run p schedule (mkSystem w cs)) = w.
Proof.
  induction 1 as [|m sch Hm _ IH]; intros cs Hcs; [reflexivity|].
  cbn [run fold_left]. unfold system_step at 2. cbn [callers shared].
  destruct (nth_error cs (fst m)) as [c|] eqn:E.
  - assert (Hc : match c with Start | Done _ => true | _ => false end = true).
    { apply nth_error_In in E. rewrite forallb_forall in Hcs. now apply Hcs. }
    assert (Hst : exists c', caller_step p (snd m) c w = (c', w)
                  /\ match c' with Start | Done _ => true | _ => false end = true).
    { destruct c; try discriminate; cbn [caller_step].
      - rewrite Hm. eauto.
      - eauto. }
    destruct Hst as (c' & -> & Hc').
    apply IH. clear - Hcs Hc'.
    revert cs Hcs. induction (fst m) as [|i IHi]; intros [|x cs] Hcs; simpl in *; auto.
    + apply andb_true_iff in Hcs. destruct Hcs as [_ ->]. now rewrite Hc'.
    + apply andb_true_iff in Hcs. destruct Hcs as [-> Hcs]. simpl. now apply IHi.
  - now apply IH.
Qed.

End Overlap.

Lemma fresh_iff (p : provider) (e : env) (w : world) :
  fresh p e w = true <-> (check_time p e < cached_expiry p w - margin p)%Q.
Proof. unfold fresh. apply Qgtb_true. Qed.

(** C9, as the code has it.  The caches take no lock and keep no mark of a
    refresh in flight: a caller that finds the token stale makes its own
    refresh request.  So a caller that runs alone on a stale token (which
    is what [get_github_token] and [get_spotify_token] are) makes exactly
    one request, [k] callers that all test the expiry before any of them
    stores its answer make [k] requests, and while the clock reads less
    than the expiry minus the margin no caller makes any request or changes
    anything, under every schedule. *)
Theorem token_cache_no_single_flight (p : provider) :
  (forall e w,
      run_alone p e w = (Done (fst (get_token p e w)), snd (get_token p e w)))
  /\ (forall e w,
        fresh p e w = false ->
        refreshes p (snd (get_token p e w)) = S (refreshes p w))
  /\ (forall k e w,
        fresh p e w = false ->
        let s := run p (overlapped k e) (mkSystem w (repeat Start k)) in
        refreshes p (shared s) = k + refreshes p w
        /\ forallb is_done (callers s) = true)
  /\ (forall schedule k w,
        Forall (fun m => (check_time p (snd m) < cached_expiry p w - margin p)%Q)
               schedule ->
        shared (run p schedule (mkSystem w (repeat Start k))) = w).
Proof.
  repeat apply conj.
  - apply run_alone_get_token.
  - apply get_token_stale_refreshes.
  - apply overlapped_refreshes.
  - intros schedule k w H. apply fresh_schedule_idle.
    + eapply Forall_impl; [|exact H]. intros m Hm. now apply fresh_iff.
    + clear. induction k; simpl; auto.
Qed.

Lemma token_cache_no_single_flight_witness :
  let e := sample_env "Test Song 2" "Test Artist" issue_created in
  let s := run Installation (overlapped 3 e) (mkSystem (initial_world "") (repeat Start 3)) in
  refreshes Installation (shared s) = 3 /\ forallb is_done (callers s) = true.
Proof.
  exact (proj1 (proj2 (proj2 (token_cache_no_single_flight Installation))) 3
               (sample_env "Test Song 2" "Test Artist" issue_created)
               (initial_world "") eq_refl).
Defined.

(** Two callers of [get_spotify_token] on the stale token of a freshly
    loaded module, moving in turn: each gets a token, and two refresh
    requests have been made, not one. *)
Lemma two_callers_two_refreshes :
  let e := sample_env "Test Song 2" "Test Artist" issue_created in
  let s := run ClientCredentials [(0, e); (1, e); (0, e); (1, e); (0, e); (1, e)]
               (mkSystem (initial_world "") [Start; Start]) in
  fresh ClientCredentials e (initial_world "") = false
  /\ callers s = [Done (Ok (JStr "BQ_sample")); Done (Ok (JStr "BQ_sample"))]
  /\ calls (shared s) = [SpotifyTokenRequest; SpotifyTokenRequest]
  /\ refreshes ClientCredentials (shared s) = 2
  /\ refreshes ClientCredentials (shared s) <> 1.
Proof. vm_compute. repeat split. discriminate. Qed.

(** ** The ledger *)

Section Ledger.

Lemma length_le_0 (s : string) : String.length s <= 0 -> s = "".
Proof. destruct s; simpl; [auto | lia]. Qed.

(** Translation of a text that is followed by something that does not
    start with LF. *)
Lemma universal_newlines_app (a b : string) :
  (forall r, b <> String LF r) ->
  universal_newlines (a ++ b) = universal_newlines a ++ universal_newlines b.
Proof.
  intros Hb.
  assert (G : forall n a, String.length a <= n ->
              universal_newlines (a ++ b)
              = universal_newlines a ++ universal_newlines b).
  { induction n as [|n IH]; intros x Hx.
    - apply length_le_0 in Hx. now subst.
    - destruct x as [|c r]; [reflexivity|].
      simpl in Hx. cbn [append universal_newlines].
      destruct (Ascii.eqb c CR) eqn:Ec.
      + destruct r as [|c2 r2].
        * cbn [append]. destruct b as [|d b']; [reflexivity|].
          destruct (Ascii.eqb d LF) eqn:Ed.
          -- apply Ascii.eqb_eq in Ed. subst d. exfalso. now apply (Hb b').
          -- reflexivity.
        * cbn [append]. destruct (Ascii.eqb c2 LF).
          -- cbn [append]. f_equal. apply IH. simpl in Hx. lia.
          -- cbn [append]. f_equal.
             change (String c2 (r2 ++ b)) with (String c2 r2 ++ b).
             apply IH. lia.
      + cbn [append]. f_equal. apply IH. lia. }
  apply (G (String.length a)). lia.
Qed.

Lemma universal_newlines_no_CR (s : string) :
  no_CR s = true -> universal_newlines s = s.
Proof.
  unfold no_CR, not_CR. induction s as [|c r IH]; [reflexivity|].
  cbn [forallb_str universal_newlines]. intros H.
  apply andb_true_iff in H. destruct H as [Hc Hr].
  apply negb_true_iff in Hc. rewrite Hc. f_equal. now apply IH.
Qed.

Lemma universal_newlines_clean (s : string) :
  no_CR (universal_newlines s) = true.
Proof.
  assert (G : forall n a, String.length a <= n -> no_CR (universal_newlines a) = true).
  { induction n as [|n IH]; intros x Hx.
    - apply length_le_0 in Hx. now subst.
    - destruct x as [|c r]; [reflexivity|].
      simpl in Hx. cbn [universal_newlines].
      destruct (Ascii.eqb c CR) eqn:Ec.
      + destruct r as [|c2 r2]; [reflexivity|].
        simpl in Hx.
        destruct (Ascii.eqb c2 LF); unfold no_CR; cbn [forallb_str];
          (rewrite andb_true_iff; split; [reflexivity|]); apply IH; simpl; lia.
      + unfold no_CR. cbn [forallb_str]. unfold not_CR at 1. rewrite Ec.
        apply IH. lia. }
  apply (G (String.length s)). lia.
Qed.

(** Whatever precedes and follows it, a text without CR that has been
    written to the file is found in what is read back. *)
Lemma str_in_universal_newlines (t : string) :
  no_CR t = true ->
  forall a b, str_in t (universal_newlines (a ++ t ++ b)) = true.
Proof.
  intros Ht.
  assert (Ht' : forall b, universal_newlines (t ++ b) = t ++ universal_newlines b).
  { clear - Ht. unfold no_CR, not_CR in Ht.
    induction t as [|c r IH]; intros b; [reflexivity|].
    cbn [forallb_str] in Ht. apply andb_true_iff in Ht. destruct Ht as [Hc Hr].
    apply negb_true_iff in Hc. cbn [append universal_newlines]. rewrite Hc.
    f_equal. now apply IH. }
  assert (G : forall n a b, String.length a <= n ->
              str_in t (universal_newlines (a ++ t ++ b)) = true).
  { induction n as [|n IH]; intros a b Ha.
    - apply length_le_0 in Ha. subst a. cbn [append]. rewrite Ht'.
      apply (str_in_app t "").
    - destruct a as [|c r].
      + cbn [append]. rewrite Ht'. apply (str_in_app t "").
      + simpl in Ha. cbn [append universal_newlines].
        destruct (Ascii.eqb c CR) eqn:Ec.
        * destruct r as [|c2 r2].
          -- cbn [append].
             destruct (t ++ b) as [|d tb] eqn:Etb.
             ++ destruct t; [reflexivity | discriminate].
             ++ destruct (Ascii.eqb d LF) eqn:Ed.
                ** apply Ascii.eqb_eq in Ed. subst d.
                   destruct t as [|d' t'].
                   --- reflexivity.
                   --- cbn [append] in Etb. injection Etb as -> <-.
                       assert (Ht2 : no_CR t' = true).
                       { unfold no_CR in *. cbn [forallb_str] in Ht.
                         now apply andb_true_iff in Ht. }
                       assert (E : universal_newlines (t' ++ b)
                                   = t' ++ universal_newlines b).
                       { specialize (Ht' b). cbn [append universal_newlines] in Ht'.
                         change (Ascii.eqb LF CR) with false in Ht'.
                         now injection Ht'. }
                       rewrite E.
                       apply (str_in_app (String LF t') "").
                ** rewrite <- Etb. rewrite str_in_cons.
                   destruct (String.prefix t _); [reflexivity|].
                   rewrite Ht'. apply (str_in_app t "").
          -- cbn [append]. destruct (Ascii.eqb c2 LF).
             ++ rewrite str_in_cons. destruct (String.prefix t _); [reflexivity|].
                apply IH. simpl in Ha. lia.
             ++ rewrite str_in_cons. destruct (String.prefix t _); [reflexivity|].
                change (String c2 (r2 ++ t ++ b)) with (String c2 r2 ++ t ++ b).
                apply IH. lia.
        * rewrite str_in_cons. destruct (String.prefix t _); [reflexivity|].
          apply IH. lia. }
  intros a b. apply (G (String.length a)). lia.
Qed.

Lemma lines_of_cons (c : ascii) (r : string) :
  lines_of (String c r)
  = if Ascii.eqb c LF then nl :: lines_of r
    else match lines_of r with
         | [] => [String c ""]
         | l :: ls => String c l :: ls
         end.
Proof. reflexivity. Qed.

Lemma lines_of_nonempty (c : ascii) (r : string) : lines_of (String c r) <> [].
Proof.
  rewrite lines_of_cons. destruct (Ascii.eqb c LF); [discriminate|].
  destruct (lines_of r); discriminate.
Qed.

Lemma complete_cons (c d : ascii) (r : string) :
  complete (String c (String d r)) = complete (String d r).
Proof. reflexivity. Qed.

Lemma complete_app_nl (s : string) : complete (s ++ nl) = true.
Proof.
  induction s as [|c r IH]; [reflexivity|].
  cbn [append]. destruct r as [|d r']; [reflexivity|].
  cbn [append] in *. rewrite complete_cons. exact IH.
Qed.

(** The lines of a text that follows a complete text. *)
Lemma lines_of_app (s t : string) :
  complete s = true -> lines_of (s ++ t) = (lines_of s ++ lines_of t)%list.
Proof.
  induction s as [|c r IH]; intros Hs; [reflexivity|].
  destruct r as [|d r'].
  - cbn [complete] in Hs. apply Ascii.eqb_eq in Hs. subst c. reflexivity.
  - rewrite complete_cons in Hs. specialize (IH Hs).
    pose proof (lines_of_nonempty d r') as Hne.
    remember (String d r') as s' eqn:Es'. clear Es'.
    change (String c s' ++ t) with (String c (s' ++ t)).
    rewrite (lines_of_cons c (s' ++ t)), (lines_of_cons c s'), IH.
    destruct (Ascii.eqb c LF); [reflexivity|].
    destruct (lines_of s') as [|l ls]; [congruence | reflexivity].
Qed.

(** A text without LF, then LF: one line. *)
Lemma lines_of_one (a : string) :
  no_LF a = true -> lines_of (a ++ nl) = [a ++ nl].
Proof.
  unfold no_LF, not_LF. induction a as [|c r IH]; intros H; [reflexivity|].
  cbn [forallb_str] in H. apply andb_true_iff in H. destruct H as [Hc Hr].
  apply negb_true_iff in Hc. cbn [append]. rewrite lines_of_cons, Hc.
  now rewrite (IH Hr).
Qed.

Lemma concat_all_lines_of (s : string) : concat_all (lines_of s) = s.
Proof.
  induction s as [|c r IH]; [reflexivity|].
  rewrite lines_of_cons. destruct (Ascii.eqb c LF) eqn:E.
  - apply Ascii.eqb_eq in E. subst c. cbn [concat_all nl append]. now rewrite IH.
  - destruct (lines_of r) as [|l ls].
    + cbn [concat_all] in *. subst r. reflexivity.
    + cbn [concat_all append] in *. now rewrite IH.
Qed.

Lemma no_CR_app (a b : string) : no_CR (a ++ b) = no_CR a && no_CR b.
Proof. apply forallb_str_app. Qed.

Lemma no_LF_app (a b : string) : no_LF (a ++ b) = no_LF a && no_LF b.
Proof. apply forallb_str_app. Qed.

Lemma no_CR_concat_all (ls : list string) :
  forallb no_CR ls = true -> no_CR (concat_all ls) = true.
Proof.
  induction ls as [|l ls IH]; [reflexivity|].
  cbn [forallb concat_all]. intros H. apply andb_true_iff in H.
  rewrite no_CR_app. destruct H as [-> H]. now apply IH.
Qed.

Lemma no_CR_lines_of (s : string) :
  no_CR s = true -> forallb no_CR (lines_of s) = true.
Proof.
  unfold no_CR. induction s as [|c r IH]; [reflexivity|].
  cbn [forallb_str]. intros H. apply andb_true_iff in H. destruct H as [Hc Hr].
  specialize (IH Hr). rewrite lines_of_cons.
  destruct (Ascii.eqb c LF).
  - cbn [forallb]. now rewrite IH.
  - destruct (lines_of r) as [|l ls]; cbn [forallb forallb_str] in *.
    + now rewrite Hc.
    + now rewrite Hc.
Qed.

(** The lines of a complete text are terminated and hold no other LF; a
    list of such lines is the list of lines of its concatenation. *)
Lemma lines_of_complete (s : string) :
  complete s = true -> Forall terminated_line (lines_of s).
Proof.
  induction s as [|c r IH]; intros Hs; [constructor|].
  rewrite lines_of_cons. destruct (Ascii.eqb c LF) eqn:E.
  - constructor.
    + exists "". split; reflexivity.
    + apply IH. destruct r; [reflexivity | exact Hs].
  - destruct r as [|d r'].
    + cbn [complete] in Hs. congruence.
    + rewrite complete_cons in Hs. specialize (IH Hs).
      pose proof (lines_of_nonempty d r') as Hne.
      remember (String d r') as s' eqn:Es'. clear Es'.
      destruct (lines_of s') as [|l ls]; [congruence|].
      inversion IH as [|? ? (a & -> & Ha) Hls]; subst.
      constructor; [|exact Hls].
      exists (String c a). split; [reflexivity|].
      unfold no_LF, not_LF in *. cbn [forallb_str]. now rewrite E, Ha.
Qed.

Lemma lines_of_concat_all (ls : list string) :
  Forall terminated_line ls -> lines_of (concat_all ls) = ls.
Proof.
  induction 1 as [|l ls (a & -> & Ha) _ IH]; [reflexivity|].
  cbn [concat_all]. rewrite lines_of_app by apply complete_app_nl.
  rewrite (lines_of_one a Ha), IH. reflexivity.
Qed.

Lemma complete_concat_all (ls : list string) :
  Forall terminated_line ls -> complete (concat_all ls) = true.
Proof.
  induction 1 as [|l ls (a & -> & Ha) _ IH]; [reflexivity|].
  cbn [concat_all]. destruct (concat_all ls) as [|c r] eqn:E.
  - rewrite append_nil_r. apply complete_app_nl.
  - clear - IH. induction (a ++ nl) as [|x s IHs]; [exact IH|].
    cbn [append]. destruct s; cbn [append] in *; exact IHs.
Qed.

(** What the loop of [del_line] returns. *)
Lemma del_line_loop_spec (target : string) (lines : list string) :
  forall cnt out,
    del_line_loop target lines cnt out
    = (cnt + count_line target lines,
       out ++ concat_all (filter (fun l => negb (String.eqb target l)) lines)).
Proof.
  unfold count_line. induction lines as [|l ls IH]; intros cnt out.
  - simpl. now rewrite Nat.add_0_r, append_nil_r.
  - cbn [del_line_loop filter]. rewrite (String.eqb_sym target l).
    destruct (String.eqb l target); cbn [negb].
    + rewrite IH. cbn [List.length]. f_equal. lia.
    + rewrite IH. cbn [concat_all]. now rewrite append_assoc.
Qed.

Lemma del_line_file_spec (song artist content : string) :
  del_line_file song artist content
  = (count_line (pair_line song artist) (readlines content),
     concat_all (filter (fun l => negb (String.eqb (pair_line song artist) l))
                        (readlines content))).
Proof. unfold del_line_file. now rewrite del_line_loop_spec. Qed.

Lemma no_line_break_pair_text (song artist : string) :
  no_line_break song = true -> no_line_break artist = true ->
  no_CR (pair_text song artist) = true /\ no_LF (pair_text song artist) = true.
Proof.
  unfold no_line_break, pair_text. intros Hs Ha.
  apply andb_true_iff in Hs. apply andb_true_iff in Ha.
  destruct Hs as [Hs1 Hs2], Ha as [Ha1 Ha2].
  rewrite !no_CR_app, !no_LF_app, Hs1, Hs2, Ha1, Ha2. split; reflexivity.
Qed.

Lemma pair_text_not_empty (song artist : string) : pair_text song artist <> "".
Proof. unfold pair_text. destruct song; discriminate. Qed.

(** Reading back a ledger to which a line has been appended. *)
Lemma read_text_append_line (text content : string) :
  no_CR text = true -> no_LF text = true -> text <> "" ->
  read_text (content ++ text ++ nl) = read_text content ++ text ++ nl.
Proof.
  intros Hc Hl Hne. unfold read_text.
  rewrite universal_newlines_app.
  - f_equal. apply universal_newlines_no_CR. rewrite no_CR_app, Hc. reflexivity.
  - intros r E. destruct text as [|c t]; [congruence|].
    cbn [append] in E. injection E as -> _.
    unfold no_LF, not_LF in Hl. cbn [forallb_str] in Hl.
    rewrite Ascii.eqb_refl in Hl. discriminate.
Qed.

Lemma ledger_append_n_S (n : nat) (song artist content : string) :
  ledger_append_n (S n) song artist content
  = ledger_append song artist (ledger_append_n n song artist content).
Proof. reflexivity. Qed.

Lemma readlines_append_n (song artist content : string) (n : nat) :
  no_line_break song = true -> no_line_break artist = true ->
  complete (read_text content) = true ->
  readlines (ledger_append_n n song artist content)
  = (readlines content ++ repeat (pair_line song artist) n)%list
  /\ complete (read_text (ledger_append_n n song artist content)) = true.
Proof.
  intros Hs Ha Hc.
  destruct (no_line_break_pair_text song artist Hs Ha) as [Hcr Hlf].
  pose proof (pair_text_not_empty song artist) as Hne.
  induction n as [|n [IH1 IH2]].
  - split; [|exact Hc]. cbn [repeat]. now rewrite app_nil_r.
  - rewrite ledger_append_n_S.
    unfold ledger_append, pair_line, readlines in *.
    rewrite read_text_append_line by assumption.
    split.
    + rewrite lines_of_app by exact IH2. rewrite IH1.
      rewrite (lines_of_one _ Hlf). rewrite <- app_assoc. f_equal.
      symmetry. apply repeat_cons.
    + rewrite <- append_assoc. apply complete_app_nl.
Qed.

Lemma count_line_app_repeat (line : string) (ls : list string) (n : nat) :
  count_line line (ls ++ repeat line n)%list = count_line line ls + n.
Proof.
  unfold count_line. rewrite filter_app, length_app. f_equal.
  induction n; simpl; auto. rewrite String.eqb_refl. simpl. now rewrite IHn.
Qed.

Lemma filter_out_app_repeat (line : string) (ls : list string) (n : nat) :
  filter (fun l => negb (String.eqb line l)) (ls ++ repeat line n)%list
  = filter (fun l => negb (String.eqb line l)) ls.
Proof.
  rewrite filter_app.
  replace (filter _ (repeat line n)) with (@nil string); [apply app_nil_r|].
  induction n; simpl; auto. now rewrite String.eqb_refl.
Qed.

Lemma Forall_filter {A} (P : A -> Prop) (f : A -> bool) (l : list A) :
  Forall P l -> Forall P (filter f l).
Proof.
  induction 1; simpl; [constructor|]. destruct (f x); [constructor|]; auto.
Qed.

Lemma forallb_filter {A} (g f : A -> bool) (l : list A) :
  forallb g l = true -> forallb g (filter f l) = true.
Proof.
  induction l as [|x l IH]; simpl; auto. intros H.
  apply andb_true_iff in H. destruct H as [Hx Hl].
  destruct (f x); simpl; auto. now rewrite Hx, IH.
Qed.

(** Reading back what [del_line] wrote from a complete ledger. *)
Lemma readlines_del_line_file (song artist content : string) :
  complete (read_text content) = true ->
  readlines (snd (del_line_file song artist content))
  = filter (fun l => negb (String.eqb (pair_line song artist) l))
           (readlines content).
Proof.
  intros Hc. rewrite del_line_file_spec. cbn [snd].
  set (kept := filter _ (readlines content)).
  assert (Ht : Forall terminated_line kept).
  { apply Forall_filter. now apply lines_of_complete. }
  assert (Hcr : no_CR (concat_all kept) = true).
  { apply no_CR_concat_all. apply forallb_filter.
    apply no_CR_lines_of. apply universal_newlines_clean. }
  unfold readlines at 1, read_text.
  rewrite (universal_newlines_no_CR _ Hcr). now apply lines_of_concat_all.
Qed.

(** Appending a pair without CR makes the membership test answer true. *)
Lemma ledger_append_contains (song artist content : string) :
  no_CR song = true -> no_CR artist = true ->
  ledger_contains song artist (ledger_append song artist content) = true.
Proof.
  intros Hs Ha. unfold ledger_contains, ledger_append, pair_line, read_text.
  apply str_in_universal_newlines.
  unfold pair_text. rewrite !no_CR_app, Hs, Ha. reflexivity.
Qed.

(** C5, as the code has it.  For a pair whose song and artist hold no line
    break (neither CR nor LF) and a ledger that is empty or ends with a line
    end: after [n] appends of the pair in a row the ledger's lines are the
    former ones followed by [n] copies of the pair's line; [del_line]
    returns the number of lines equal to the pair's line, the [k] that were
    there before plus [n] (so [n] when there was none); no line of the
    ledger read back after the removal is the pair's line, the other lines
    being kept in order; and the membership test right after one append
    answers true. *)
Theorem ledger_remove_after_appends (song artist content : string) (n : nat) :
  no_line_break song = true ->
  no_line_break artist = true ->
  complete (read_text content) = true ->
  let line := pair_line song artist in
  let k := count_line line (readlines content) in
  let appended := ledger_append_n n song artist content in
  let removed := del_line_file song artist appended in
  readlines appended = (readlines content ++ repeat line n)%list
  /\ fst removed = k + n
  /\ (k = 0 -> fst removed = n)
  /\ lines_of (read_text (snd removed))
     = filter (fun l => negb (String.eqb line l)) (readlines content)
  /\ ~ In line (lines_of (read_text (snd removed)))
  /\ ledger_contains song artist (ledger_append song artist content) = true.
Proof.
  intros Hs Ha Hc line k appended removed.
  destruct (readlines_append_n song artist content n Hs Ha Hc) as [Hl Hcomp].
  fold appended line in Hl, Hcomp.
  assert (Hfst : fst removed = k + n).
  { subst removed. rewrite del_line_file_spec. cbn [fst]. fold line.
    rewrite Hl. apply count_line_app_repeat. }
  assert (Hsnd : lines_of (read_text (snd removed))
                 = filter (fun l => negb (String.eqb line l)) (readlines content)).
  { subst removed. fold (readlines (snd (del_line_file song artist appended))).
    rewrite readlines_del_line_file by exact Hcomp. fold line.
    rewrite Hl. apply filter_out_app_repeat. }
  repeat apply conj.
  - exact Hl.
  - exact Hfst.
  - intros Hk. rewrite Hfst, Hk. reflexivity.
  - exact Hsnd.
  - rewrite Hsnd. intros Hin. apply filter_In in Hin. destruct Hin as [_ Hin].
    rewrite String.eqb_refl in Hin. discriminate.
  - unfold no_line_break in Hs, Ha.
    apply andb_true_iff in Hs. apply andb_true_iff in Ha.
    apply ledger_append_contains; tauto.
Qed.

Lemma ledger_remove_after_appends_witness :
  let content := "A by B" ++ nl in
  let appended := ledger_append_n 3 "Song 2" "X" content in
  fst (del_line_file "Song 2" "X" appended) = 3
  /\ lines_of (read_text (snd (del_line_file "Song 2" "X" appended))) = ["A by B" ++ nl].
Proof.
  destruct (ledger_remove_after_appends "Song 2" "X" ("A by B" ++ nl) 3
              eq_refl eq_refl eq_refl) as (_ & _ & H1 & H2 & _).
  split.
  - apply H1. reflexivity.
  - exact H2.
Defined.

(** A pair with a line break inside: one append, and [del_line] removes
    nothing and returns 0, the text staying in the ledger; with a CR
    inside, the membership test right after the append answers false; and
    on a ledger whose last line has no line end, the appended text joins
    that line and [del_line] returns 0 as well. *)
Lemma ledger_remove_misses_broken_pair :
  let song := "a" ++ nl ++ "b" in
  let appended := ledger_append_n 1 song "c" "" in
  let removed := del_line_file song "c" appended in
  fst removed = 0
  /\ fst removed <> 1
  /\ snd removed = appended
  /\ str_in (pair_text song "c") (read_text (snd removed)) = true
  /\ ledger_contains ("a" ++ String CR "b") "c"
                     (ledger_append ("a" ++ String CR "b") "c" "") = false
  /\ fst (del_line_file "Song 2" "X" (ledger_append_n 1 "Song 2" "X" "A by B")) = 0.
Proof. vm_compute. repeat split. discriminate. Qed.

(** C10.  The membership test of the ledger looks for the text
    [song by artist] anywhere in what is read from the file, not for a
    line: it answers true exactly when the text occurs somewhere.  So with
    the one line [ab by cd] stored, the pair (b, c), never appended, is
    reported as present (and a request for it is answered "already
    exists"), although no line of the ledger is its line and [del_line]
    finds nothing to remove; and with the lines of both pairs stored,
    after [del_line] has removed every line equal to the line of (b, c),
    the test for (b, c) still answers true. *)
Theorem ledger_contains_is_substring_test :
  (forall song artist content,
      ledger_contains song artist content = true
      <-> exists before after,
            read_text content = before ++ (song ++ " by " ++ artist) ++ after)
  /\ (let stored := ledger_append "ab" "cd" "" in
      ledger_contains "b" "c" stored = true
      /\ ~ In (pair_line "b" "c") (readlines stored)
      /\ del_line_file "b" "c" stored = (0, stored)
      /\ (forall e, update e "b" "c" (Some "1.1.1") (initial_world stored)
                    = (Ok already_exists_text, initial_world stored)))
  /\ (let stored := ledger_append "b" "c" (ledger_append "ab" "cd" "") in
      let removed := del_line_file "b" "c" stored in
      fst removed = 1
      /\ ~ In (pair_line "b" "c") (readlines (snd removed))
      /\ ledger_contains "b" "c" (snd removed) = true).
Proof.
  repeat apply conj.
  - intros song artist content. unfold ledger_contains, pair_text.
    apply str_in_iff.
  - reflexivity.
  - vm_compute. intros [H|[]]. discriminate H.
  - reflexivity.
  - intros e. reflexivity.
  - reflexivity.
  - vm_compute. intros [H|[]]. discriminate H.
  - reflexivity.
Qed.

End Ledger.

(** ** One issue per pair *)

Section Filing.

Lemma get_github_token_quiet (e : env) : preserves issue_calls (get_github_token e).
Proof. unfold get_github_token, github_store. quiet. Qed.

Lemma get_spotify_token_quiet (e : env) : preserves issue_calls (get_spotify_token e).
Proof. unfold get_spotify_token, spotify_store. quiet. Qed.

Lemma check_song_quiet (e : env) (song artist : string) :
  preserves issue_calls (check_song e song artist).
Proof.
  unfold check_song. apply preserves_bind; [apply get_spotify_token_quiet|intros ?].
  quiet.
Qed.

(** [create_issue] posts at most one issue, for the pair it is given. *)
Lemma create_issue_posts (e : env) (song artist version stripper : string)
      (w : world) :
  let w' := snd (create_issue e song artist version stripper w) in
  issue_calls w' = issue_calls w
  \/ exists tok,
       issue_calls w'
       = (issue_calls w ++ [GithubCreateIssue tok (issue_title song artist)
                                              (issue_text stripper version)])%list.
Proof.
  cbv zeta. unfold create_issue, bind.
  pose proof (get_github_token_quiet e w) as H.
  destruct (get_github_token e w) as [[tok|x] w1]; cbn [snd] in *.
  - right. exists tok. unfold modify, lift, ret.
    destruct (rbind _ _); cbn [snd]; now rewrite issue_calls_log, H.
  - left. exact H.
Qed.

(** What a request does to the ledger and to the posted issues: nothing,
    or, for a pair the ledger did not hold, one appended line and at most
    one issue, for that pair. *)
Lemma update_effect (e : env) (song artist : string) (version : option string)
      (w : world) :
  let w' := snd (update e song artist version w) in
  (unsupported_txt w' = unsupported_txt w /\ issue_calls w' = issue_calls w)
  \/ (ledger_contains song artist (unsupported_txt w) = false
      /\ unsupported_txt w' = ledger_append song artist (unsupported_txt w)
      /\ (issue_calls w' = issue_calls w
          \/ exists tok text,
               issue_calls w'
               = (issue_calls w ++ [GithubCreateIssue tok (issue_title song artist) text])%list)).
Proof.
  cbv zeta. destruct version as [version|]; [|left; split; reflexivity].
  destruct (String.ltb version "1.1.1") eqn:Hv.
  { left. unfold update. rewrite Hv. split; reflexivity. }
  destruct (ledger_contains song artist (unsupported_txt w)) eqn:Hc.
  { left. unfold update. rewrite Hv. unfold bind, get.
    unfold ledger_contains, pair_text in Hc. rewrite Hc. split; reflexivity. }
  destruct (Re.fullmatch_asrg song && Re.fullmatch_asrg artist) eqn:Ht.
  { left. rewrite update_trivial_pair by assumption. split; reflexivity. }
  rewrite update_reaches_check by assumption.
  pose proof (check_song_ledger e song artist w) as Hl.
  pose proof (check_song_quiet e song artist w) as Hq.
  destruct (check_song e song artist w) as [[[|]|x] w1]; cbn [snd] in *.
  - right. split; [reflexivity|]. cbv zeta.
    set (w2 := set_unsupported_txt _ w1).
    pose proof (create_issue_ledger e song artist version (stripped e) w2) as Hl2.
    pose proof (create_issue_posts e song artist version (stripped e) w2) as Hp.
    cbv zeta in Hp.
    assert (E : snd (let (r, w3) := create_issue e song artist version (stripped e) w2 in
                     match r with
                     | Ok issue =>
                         (Ok (if (fst issue =? 201)%Z
                              then created_text song artist (snd issue)
                              else logged_text song artist), w3)
                     | Raise x => (Raise x, w3)
                     end)
                = snd (create_issue e song artist version (stripped e) w2)).
    { now destruct (create_issue e song artist version (stripped e) w2) as [[i|x] w3]. }
    rewrite E, Hl2. split.
    + subst w2. cbn [unsupported_txt set_unsupported_txt]. now rewrite Hl.
    + assert (Hw2 : issue_calls w2 = issue_calls w) by (subst w2; exact Hq).
      rewrite Hw2 in Hp. destruct Hp as [Hp|[tok Hp]]; [now left|].
      right. eauto.
  - left. split; assumption.
  - left. split; assumption.
Qed.



Lemma length_append (a b : string) :
  String.length (a ++ b) = String.length a + String.length b.
Proof. induction a; simpl; auto. Qed.

Lemma append_inj_r (x y z : string) : x ++ z = y ++ z -> x = y.
Proof.
  revert y. induction x as [|c x IH]; intros [|d y] H; cbn [append] in H.
  - reflexivity.
  - apply (f_equal String.length) in H. cbn [String.length] in H.
    rewrite length_append in H. lia.
  - apply (f_equal String.length) in H. cbn [String.length] in H.
    rewrite length_append in H. lia.
  - injection H as -> H. f_equal. now apply IH.
Qed.






Example three_requests_one_issue :
  let e := sample_env "Test Song 2" "Test Artist" issue_created in
  let r := mkRequest e "Test Song 2" "Test Artist" (Some "1.1.1") in
  issues_filed "Test Song 2" "Test Artist" (serve_all (initial_world "") [r; r; r]) = 1.
Proof. vm_compute. reflexivity. Qed.

End Filing.

(** ** The title of an issue, parsed back by the webhook *)

Section TitleRoundTrip.

Lemma drop_app (l r : string) : drop (String.length l) (l ++ r) = r.
Proof. induction l; simpl; auto. Qed.

Lemma lit_some {A} (l : string) (k : string -> option A) (s : string) (x : A) :
  Re.lit l k s = Some x <-> exists r, s = l ++ r /\ k r = Some x.
Proof.
  unfold Re.lit. destruct (String.prefix l s) eqn:E.
  - apply prefix_iff in E. destruct E as [q ->]. rewrite drop_app. split.
    + intros H. eauto.
    + intros (r & Hr & Hk). apply (f_equal (drop (String.length l))) in Hr.
      rewrite !drop_app in Hr. now subst.
  - split; [discriminate|]. intros (r & -> & _).
    rewrite prefix_app in E. discriminate.
Qed.

Section DotPlus.

Context {A : Type} (k : string -> option A).

Lemma dot_plus_cons (c : ascii) (r : string) :
  Re.dot_plus k (String c r)
  = if Ascii.eqb c LF then None
    else match Re.dot_plus k r with
         | Some (g, a) => Some (String c g, a)
         | None => match k r with
                   | Some a => Some (String c "", a)
                   | None => None
                   end
         end.
Proof. reflexivity. Qed.

(** What a match of the group is. *)
Lemma dot_plus_sound (s g : string) (a : A) :
  Re.dot_plus k s = Some (g, a) ->
  exists r, s = g ++ r /\ k r = Some a /\ g <> "" /\ no_LF g = true.
Proof.
  revert g a. induction s as [|c r IH]; intros g a H; [discriminate|].
  rewrite dot_plus_cons in H. destruct (Ascii.eqb c LF) eqn:Ec; [discriminate|].
  destruct (Re.dot_plus k r) as [[g0 a0]|] eqn:E.
  - injection H as <- <-. destruct (IH g0 a0 eq_refl) as (r' & -> & Hk & _ & Hg).
    exists r'. repeat split; auto; [discriminate|].
    unfold no_LF, not_LF in *. cbn [forallb_str]. now rewrite Ec, Hg.
  - destruct (k r) as [a0|] eqn:Ek; [|discriminate].
    injection H as <- <-. exists r. repeat split; auto; [discriminate|].
    unfold no_LF, not_LF. cbn [forallb_str]. now rewrite Ec.
Qed.

(** The group matches whenever some split of the text does. *)
Lemma dot_plus_complete (g r : string) (a : A) :
  g <> "" -> no_LF g = true -> k r = Some a ->
  Re.dot_plus k (g ++ r) <> None.
Proof.
  induction g as [|c g IH]; intros Hne Hg Hk; [congruence|].
  unfold no_LF, not_LF in Hg. cbn [forallb_str] in Hg.
  apply andb_true_iff in Hg. destruct Hg as [Hc Hg]. apply negb_true_iff in Hc.
  cbn [append]. rewrite dot_plus_cons, Hc.
  destruct (Re.dot_plus k (g ++ r)) as [[g0 a0]|] eqn:E; [discriminate|].
  destruct g as [|d g'].
  - cbn [append]. now rewrite Hk.
  - exfalso. apply IH; auto. discriminate.
Qed.

(** The group is the longest one after which the rest matches. *)
Lemma dot_plus_longest (s g : string) (a : A) :
  Re.dot_plus k s = Some (g, a) ->
  forall g' r',
    s = g' ++ r' -> g' <> "" -> no_LF g' = true -> k r' <> None ->
    String.length g' <= String.length g.
Proof.
  revert g a. induction s as [|c r IH]; intros g a H g' r' Hs Hne Hg Hk;
    [discriminate|].
  rewrite dot_plus_cons in H. destruct (Ascii.eqb c LF) eqn:Ec; [discriminate|].
  destruct g' as [|c' g'']; [congruence|].
  cbn [append] in Hs. injection Hs as <- ->.
  assert (Hg'' : no_LF g'' = true).
  { unfold no_LF in *. cbn [forallb_str] in Hg. now apply andb_true_iff in Hg. }
  destruct (Re.dot_plus k (g'' ++ r')) as [[g0 a0]|] eqn:E.
  - injection H as <- <-. cbn [String.length].
    destruct g'' as [|d g3]; [cbn; lia|].
    apply le_n_S.
    exact (IH g0 a0 eq_refl (String d g3) r' eq_refl ltac:(discriminate) Hg'' Hk).
  - destruct g'' as [|d g3].
    + cbn [append] in H. destruct (k r') as [a'|]; [|congruence].
      injection H as <- _. cbn. lia.
    + exfalso. destruct (k r') as [a'|] eqn:Ek; [|congruence].
      exact (dot_plus_complete (String d g3) r' a' ltac:(discriminate) Hg'' Ek E).
Qed.

End DotPlus.

(** A text that ends with [z] and one of its tails that is at least as
    long as [z]. *)
Lemma tail_ends_with (p r t z : string) :
  p ++ r = t ++ z -> String.length z <= String.length r ->
  exists x, r = x ++ z.
Proof.
  revert t. induction p as [|c p IH]; intros t H Hlen.
  - exists t. exact H.
  - destruct t as [|d t].
    + cbn [append] in H. apply (f_equal String.length) in H.
      cbn [String.length append] in H. rewrite length_append in H. lia.
    + cbn [append] in H. injection H as _ H. now apply (IH t).
Qed.

Lemma append_same_length (a b c d : string) :
  a ++ b = c ++ d -> String.length a = String.length c -> a = c /\ b = d.
Proof.
  revert c. induction a as [|x a IH]; intros [|y c] H Hl; cbn in Hl; try lia.
  - split; [reflexivity | exact H].
  - cbn [append] in H. injection H as -> H. injection Hl as Hl.
    destruct (IH c H Hl) as [-> ->]. split; reflexivity.
Qed.

Lemma dot_then_any_some (s : string) :
  Re.dot_then_any s <> None ->
  exists c r, s = String c r /\ Ascii.eqb c LF = false.
Proof.
  destruct s as [|c r]; cbn; [congruence|].
  destruct (Ascii.eqb c LF) eqn:E; [congruence|]. eauto.
Qed.

(** The second group on a text that ends with [ unsupported.]: it takes
    everything before that ending. *)
Lemma artist_group (x g : string) (u : unit) :
  no_LF x = true -> x <> "" ->
  Re.dot_plus (Re.lit " unsupported" Re.dot_then_any) (x ++ " unsupported.")
  = Some (g, u) ->
  g = x.
Proof.
  intros Hx Hne H.
  pose proof (dot_plus_longest _ _ _ _ H x " unsupported." eq_refl Hne Hx) as Hlong.
  assert (Hle : String.length x <= String.length g) by (apply Hlong; discriminate).
  apply dot_plus_sound in H. destruct H as (r & Hs & Hk & _ & _).
  apply lit_some in Hk. destruct Hk as (r2 & -> & Hk).
  assert (Hk' : Re.dot_then_any r2 <> None) by congruence.
  apply dot_then_any_some in Hk'. destruct Hk' as (c & r3 & -> & _).
  pose proof (f_equal String.length Hs) as Hlen.
  rewrite !length_append in Hlen. cbn [String.length] in Hlen.
  assert (Hgl : String.length g = String.length x) by lia.
  symmetry. symmetry in Hgl. now destruct (append_same_length _ _ _ _ Hs Hgl).
Qed.

(** The title that [create_issue] gives the issue of a pair matches the
    webhook's pattern, and the pair read back from it has the same line in
    the ledger as the pair the issue was created for (the two may split
    the text at another [ by ]). *)
Theorem issue_title_parsed_back (song artist : string) :
  song <> "" -> artist <> "" -> no_LF song = true -> no_LF artist = true ->
  exists song' artist',
    Re.match_wdt (issue_title song artist) = Some (song', artist')
    /\ pair_line song' artist' = pair_line song artist.
Proof.
  intros Hs Ha Hsl Hal.
  set (k2 := Re.lit " unsupported" Re.dot_then_any).
  set (k1 := Re.lit " by " (Re.dot_plus k2)).
  assert (Htitle : issue_title song artist = song ++ " by " ++ artist ++ " unsupported.")
    by reflexivity.
  (* the intended split matches *)
  assert (H2 : Re.dot_plus k2 (artist ++ " unsupported.") <> None).
  { apply (dot_plus_complete k2 artist " unsupported." tt); auto. }
  destruct (Re.dot_plus k2 (artist ++ " unsupported.")) as [[a0 u0]|] eqn:E2;
    [clear H2 | congruence].
  assert (H1 : Re.dot_plus k1 (issue_title song artist) <> None).
  { rewrite Htitle.
    apply (dot_plus_complete k1 song (" by " ++ artist ++ " unsupported.") (a0, u0));
      auto.
    apply lit_some. eauto. }
  unfold Re.match_wdt. fold k2 k1.
  destruct (Re.dot_plus k1 (issue_title song artist)) as [[s' [a' u']]|] eqn:E1;
    [clear H1 | congruence].
  exists s', a'. split; [reflexivity|].
  (* what was matched *)
  apply dot_plus_sound in E1. destruct E1 as (r1 & Hr1 & Hk1 & _ & _).
  apply lit_some in Hk1. destruct Hk1 as (R & -> & HR).
  pose proof HR as HR'.
  apply dot_plus_sound in HR'. destruct HR' as (r2 & HR2 & Hk2 & Hne' & Hl').
  apply lit_some in Hk2. destruct Hk2 as (r3 & -> & Hk3).
  assert (Hk3' : Re.dot_then_any r3 <> None) by congruence.
  apply dot_then_any_some in Hk3'. destruct Hk3' as (c & r4 & -> & _).
  (* the rest after [ by ] ends with the title's ending *)
  assert (Hlen : String.length " unsupported." <= String.length R).
  { rewrite HR2, !length_append. cbn [String.length]. lia. }
  assert (Hend : (s' ++ " by ") ++ R = (song ++ " by " ++ artist) ++ " unsupported.").
  { rewrite !append_assoc. rewrite <- Hr1. exact Htitle. }
  destruct (tail_ends_with _ _ _ _ Hend Hlen) as [x Hx].
  assert (Hxne : x <> "").
  { intros ->. cbn [append] in Hx. rewrite Hx in HR2.
    apply (f_equal String.length) in HR2. rewrite !length_append in HR2.
    cbn [String.length] in HR2. destruct a'; [congruence | cbn in HR2; lia]. }
  assert (Hxl : no_LF x = true).
  { assert (Hall : no_LF ((s' ++ " by ") ++ R) = true).
    { rewrite Hend, !no_LF_app, Hsl, Hal. reflexivity. }
    rewrite Hx, !no_LF_app in Hall.
    apply andb_true_iff in Hall. destruct Hall as [_ Hall].
    now apply andb_true_iff in Hall. }
  rewrite Hx in HR. apply (artist_group x a' u' Hxl Hxne) in HR. subst a'.
  rewrite Hx in Hend.
  assert (Hend2 : ((s' ++ " by ") ++ x) ++ " unsupported."
                  = (song ++ " by " ++ artist) ++ " unsupported.").
  { rewrite append_assoc. exact Hend. }
  apply append_inj_r in Hend2.
  unfold pair_line, pair_text. f_equal. rewrite <- Hend2.
  symmetry. apply append_assoc.
Qed.

(** Closing the issue that [create_issue] opened for a pair: the webhook
    runs [del_line] on the pair's line and reports the count. *)
Theorem github_webhook_removes_filed_pair (song artist : string) (w : world) :
  song <> "" -> artist <> "" -> no_LF song = true -> no_LF artist = true ->
  github_webhook "POST" (Some "issues")
                 (closed_issue_payload (issue_title song artist)) w
  = (Ok ("Deleted "
         ++ str_of_nat (fst (del_line_file song artist (unsupported_txt w)))
         ++ " instances from unsupported.txt"),
     set_unsupported_txt (snd (del_line_file song artist (unsupported_txt w))) w).
Proof.
  intros Hs Ha Hsl Hal.
  rewrite (github_webhook_closed_unsupported
             (closed_issue_payload (issue_title song artist)) _ _ _ _
             (issue_title song artist) w
             eq_refl eq_refl eq_refl eq_refl eq_refl eq_refl eq_refl eq_refl).
  destruct (issue_title_parsed_back song artist Hs Ha Hsl Hal)
    as (s' & a' & -> & Hline).
  unfold del_line_file. now rewrite Hline.
Qed.

Lemma github_webhook_removes_filed_pair_witness :
  github_webhook "POST" (Some "issues")
                 (closed_issue_payload "Stand by Me by Ben E. King unsupported.")
                 (initial_world ("Stand by Me by Ben E. King" ++ nl ++ "X by Y" ++ nl))
  = (Ok "Deleted 1 instances from unsupported.txt", initial_world ("X by Y" ++ nl)).
Proof.
  exact (github_webhook_removes_filed_pair "Stand by Me" "Ben E. King"
           (initial_world ("Stand by Me by Ben E. King" ++ nl ++ "X by Y" ++ nl))
           ltac:(discriminate) ltac:(discriminate) eq_refl eq_refl).
Defined.

End TitleRoundTrip.

(** * Further properties *)

(** ** [del_line] on any file *)

Section DelLine.

Lemma lines_of_no_LF (a : string) :
  a <> "" -> no_LF a = true -> lines_of a = [a].
Proof.
  unfold no_LF, not_LF. induction a as [|c r IH]; intros Hne H; [congruence|].
  cbn [forallb_str] in H. apply andb_true_iff in H. destruct H as [Hc Hr].
  apply negb_true_iff in Hc. rewrite lines_of_cons, Hc.
  destruct r as [|d r']; [reflexivity|].
  rewrite IH; [reflexivity | discriminate | exact Hr].
Qed.

Lemma proper_lines_of (s : string) : proper_lines (lines_of s).
Proof.
  induction s as [|c r IH]; [exact I|].
  rewrite lines_of_cons. destruct (Ascii.eqb c LF) eqn:E.
  - assert (Hnl : terminated_line nl) by (exists ""; split; reflexivity).
    cbn [proper_lines]. destruct (lines_of r); [now left | now split].
  - destruct (lines_of r) as [|l ls]; cbn [proper_lines] in *.
    + right. split; [discriminate|].
      unfold no_LF, not_LF. cbn [forallb_str]. now rewrite E.
    + assert (Hc : forall a, no_LF a = true -> no_LF (String c a) = true).
      { intros a Ha. unfold no_LF, not_LF in *. cbn [forallb_str]. now rewrite E, Ha. }
      assert (Ht : terminated_line l -> terminated_line (String c l)).
      { intros (a & -> & Ha). exists (String c a). split; [reflexivity | auto]. }
      destruct ls as [|l2 ls2].
      * destruct IH as [IH|[Hne Hl]]; [left; auto|].
        right. split; [discriminate | auto].
      * destruct IH as [IH1 IH2]. split; auto.
Qed.

Lemma proper_lines_filter (f : string -> bool) (ls : list string) :
  proper_lines ls -> proper_lines (filter f ls).
Proof.
  induction ls as [|l rest IH]; intros H; [exact I|].
  cbn [proper_lines] in H. cbn [filter].
  destruct rest as [|l2 rest2].
  - cbn [filter]. destruct (f l); [exact H | exact I].
  - destruct H as [Hl Hr]. specialize (IH Hr).
    destruct (f l); [|exact IH].
    cbn [proper_lines]. destruct (filter f (l2 :: rest2)); [now left | now split].
Qed.

Lemma lines_of_proper (ls : list string) :
  proper_lines ls -> lines_of (concat_all ls) = ls.
Proof.
  induction ls as [|l rest IH]; intros H; [reflexivity|].
  cbn [proper_lines] in H. cbn [concat_all].
  destruct rest as [|l2 rest2].
  - cbn [concat_all]. rewrite append_nil_r.
    destruct H as [(a & -> & Ha)|[Hne Hl]].
    + now apply lines_of_one.
    + now apply lines_of_no_LF.
  - destruct H as [(a & -> & Ha) Hr].
    rewrite lines_of_app by apply complete_app_nl.
    rewrite (lines_of_one a Ha), (IH Hr). reflexivity.
Qed.

(** What is read back from the file [del_line] wrote. *)
Lemma readlines_after_del_line (song artist content : string) :
  readlines (snd (del_line_file song artist content))
  = other_lines song artist content.
Proof.
  rewrite del_line_file_spec. cbn [snd]. fold (other_lines song artist content).
  assert (Hp : proper_lines (other_lines song artist content)).
  { apply proper_lines_filter, proper_lines_of. }
  assert (Hcr : no_CR (concat_all (other_lines song artist content)) = true).
  { apply no_CR_concat_all. apply forallb_filter.
    apply no_CR_lines_of. apply universal_newlines_clean. }
  unfold readlines at 1, read_text.
  rewrite (universal_newlines_no_CR _ Hcr). now apply lines_of_proper.
Qed.

Lemma filter_idem {A} (f : A -> bool) (l : list A) :
  filter f (filter f l) = filter f l.
Proof.
  induction l as [|x l IH]; [reflexivity|]. cbn [filter].
  destruct (f x) eqn:E; [|exact IH]. cbn [filter]. now rewrite E, IH.
Qed.

Lemma count_line_filtered (line : string) (ls : list string) :
  count_line line (filter (fun l => negb (String.eqb line l)) ls) = 0.
Proof.
  unfold count_line. induction ls as [|l ls IH]; [reflexivity|].
  cbn [filter]. destruct (String.eqb line l) eqn:E; cbn [negb]; [exact IH|].
  cbn [filter]. now rewrite E.
Qed.

Lemma length_filter_split {A} (f : A -> bool) (l : list A) :
  List.length l
  = List.length (filter f l) + List.length (filter (fun x => negb (f x)) l).
Proof.
  induction l as [|x l IH]; [reflexivity|]. cbn [filter List.length].
  destruct (f x); cbn [negb List.length]; lia.
Qed.

(** For every file and every pair: [del_line] returns how many lines of
    the file are the pair's line; the file it leaves reads as the other
    lines, in their order, so the line counts add up and no line of the
    pair is left; and a second [del_line] for the pair returns 0 and
    leaves the file as the first one wrote it. *)
Theorem del_line_removes_exactly (song artist content : string) :
  let line := pair_line song artist in
  let r1 := del_line_file song artist content in
  let r2 := del_line_file song artist (snd r1) in
  fst r1 = count_line line (readlines content)
  /\ readlines (snd r1) = other_lines song artist content
  /\ List.length (readlines content) = fst r1 + List.length (readlines (snd r1))
  /\ ~ In line (readlines (snd r1))
  /\ (forall l, l <> line -> In l (readlines content) -> In l (readlines (snd r1)))
  /\ r2 = (0, snd r1).
Proof.
  cbv zeta.
  pose proof (readlines_after_del_line song artist content) as Hr.
  repeat apply conj.
  - now rewrite del_line_file_spec.
  - exact Hr.
  - rewrite Hr, del_line_file_spec. cbn [fst]. unfold count_line, other_lines.
    apply length_filter_split.
  - rewrite Hr. unfold other_lines. intros Hin. apply filter_In in Hin.
    destruct Hin as [_ Hin]. rewrite String.eqb_refl in Hin. discriminate.
  - intros l Hl Hin. rewrite Hr. unfold other_lines. apply filter_In.
    split; [exact Hin|]. apply negb_true_iff. apply String.eqb_neq. congruence.
  - rewrite (del_line_file_spec song artist (snd (del_line_file song artist content))).
    rewrite Hr. unfold other_lines. rewrite count_line_filtered, filter_idem.
    f_equal. now rewrite del_line_file_spec.
Qed.

End DelLine.

(** ** What the webhook can do to the world *)

Section WebhookFrame.

(** Whatever the request, the handler leaves the world as it is or runs
    [del_line] once, for a closed issue of the tracked repository labelled
    as an unsupported song, on the pair that the pattern reads from the
    issue's title. *)
Lemma github_webhook_effect (method : string) (event : option string)
      (payload : json) (w : world) :
  snd (github_webhook method event payload w) = w
  \/ exists issue labels l0 repo title song artist,
       method = "POST"
       /\ event = Some "issues"
       /\ Json.getitem payload "action" = Ok (JStr "closed")
       /\ Json.getitem payload "issue" = Ok issue
       /\ Json.getitem issue "labels" = Ok labels
       /\ Json.getitem0 labels = Ok l0
       /\ Json.getitem l0 "name" = Ok (JStr "unsupported song")
       /\ Json.getitem payload "repository" = Ok repo
       /\ Json.getitem repo "name" = Ok (JStr "SwagLyrics-For-Spotify")
       /\ Json.getitem issue "title" = Ok (JStr title)
       /\ Re.match_wdt title = Some (song, artist)
       /\ github_webhook method event payload w
          = (Ok ("Deleted "
                 ++ str_of_nat (fst (del_line_file song artist (unsupported_txt w)))
                 ++ " instances from unsupported.txt"),
             set_unsupported_txt
               (snd (del_line_file song artist (unsupported_txt w))) w).
Proof.
  assert (Heq : forall v s, Json.eq_str v s = true -> v = JStr s).
  { intros v s H. destruct v; try discriminate. cbn [Json.eq_str] in H.
    apply String.eqb_eq in H. now subst. }
  unfold github_webhook.
  destruct (String.eqb method "POST") eqn:Hm; [|left; reflexivity].
  apply String.eqb_eq in Hm. cbn [negb].
  destruct event as [ev|]; [|left; reflexivity].
  destruct (string_dec ev "issues") as [->|Hne].
  - cbn -[Json.getitem Json.getitem0 Re.match_wdt del_line str_of_nat append
          Json.eq_str].
    unfold bind, catch, lift, ret, raise, rbind.
    destruct (Json.getitem payload "issue") as [issue|x] eqn:Hi.
    2:{ cbn [snd]. destruct (is_IndexError x); left; reflexivity. }
    destruct (Json.getitem issue "labels") as [labels|x] eqn:Hl.
    2:{ cbn [snd]. destruct (is_IndexError x); left; reflexivity. }
    destruct (Json.getitem0 labels) as [l0|x] eqn:H0.
    2:{ cbn [snd]. destruct (is_IndexError x); left; reflexivity. }
    destruct (Json.getitem l0 "name") as [label|x] eqn:Hn.
    2:{ cbn [snd]. destruct (is_IndexError x); left; reflexivity. }
    destruct (Json.getitem payload "repository") as [repo|x] eqn:Hr.
    2:{ cbn [snd]. destruct (is_IndexError x); left; reflexivity. }
    destruct (Json.getitem repo "name") as [rname|x] eqn:Hrn.
    2:{ cbn [snd]. destruct (is_IndexError x); left; reflexivity. }
    destruct (Json.getitem payload "action") as [action|x] eqn:Ha;
      [|left; reflexivity].
    destruct (Json.eq_str action "closed") eqn:Hc; [|left; reflexivity].
    destruct (Json.eq_str label "unsupported song") eqn:Hlab; [|left; reflexivity].
    destruct (Json.eq_str rname "SwagLyrics-For-Spotify") eqn:Hrep;
      [|left; reflexivity].
    cbn [andb].
    destruct (Json.getitem issue "title") as [title|x] eqn:Ht; [|left; reflexivity].
    destruct title as [| | |t| |]; try (left; reflexivity).
    destruct (Re.match_wdt t) as [[song artist]|] eqn:Hmt; [|left; reflexivity].
    right. exists issue, labels, l0, repo, t, song, artist.
    apply Heq in Hc, Hlab, Hrep. subst action label rname.
    repeat split; auto.
  - left.
    assert (E : forall (a b c : M string),
               match ev with
               | "ping" => a
               | "issues" => b
               | _ => c
               end = if String.eqb ev "ping" then a else c).
    { intros a b c.
      destruct (String.eqb ev "ping") eqn:Ep.
      - apply String.eqb_eq in Ep. now subst.
      - apply String.eqb_neq in Ep. clear - Hne Ep.
        repeat (match goal with
                | |- context [match ?x with _ => _ end] =>
                    destruct x; try congruence; try reflexivity
                end). }
    rewrite E. destruct (String.eqb ev "ping"); reflexivity.
Qed.

(** The handler never makes an outbound call and never touches a token;
    it never adds a line to the ledger; and it changes the ledger only for
    an [issues] event that closes an issue labelled [unsupported song] in
    the repository [SwagLyrics-For-Spotify]. *)
Theorem github_webhook_only_removes (method : string) (event : option string)
        (payload : json) (w : world) :
  let w' := snd (github_webhook method event payload w) in
  calls w' = calls w
  /\ gh_token w' = gh_token w /\ gh_token_expiry w' = gh_token_expiry w
  /\ spotify_token w' = spotify_token w
  /\ spotify_token_expiry w' = spotify_token_expiry w
  /\ (forall l, In l (readlines (unsupported_txt w')) ->
                In l (readlines (unsupported_txt w)))
  /\ (unsupported_txt w' <> unsupported_txt w ->
      event = Some "issues"
      /\ Json.getitem payload "action" = Ok (JStr "closed")
      /\ (exists issue labels l0,
            Json.getitem payload "issue" = Ok issue
            /\ Json.getitem issue "labels" = Ok labels
            /\ Json.getitem0 labels = Ok l0
            /\ Json.getitem l0 "name" = Ok (JStr "unsupported song"))
      /\ (exists repo,
            Json.getitem payload "repository" = Ok repo
            /\ Json.getitem repo "name" = Ok (JStr "SwagLyrics-For-Spotify"))).
Proof.
  cbv zeta.
  destruct (github_webhook_effect method event payload w)
    as [->|(issue & labels & l0 & repo & title & song & artist & _ & He & Ha & Hi
            & Hl & H0 & Hn & Hr & Hrn & _ & _ & ->)].
  - repeat split; auto; congruence.
  - cbn [snd calls gh_token gh_token_expiry spotify_token spotify_token_expiry
         unsupported_txt set_unsupported_txt].
    repeat split; auto.
    + intros l Hin. rewrite readlines_after_del_line in Hin.
      unfold other_lines in Hin. now apply filter_In in Hin.
    + exists issue, labels, l0. auto.
    + exists repo. auto.
Qed.

End WebhookFrame.

(** ** The ledger stays well formed *)

Section LedgerShape.

Lemma complete_String (c : ascii) (s : string) :
  s <> "" -> complete (String c s) = complete s.
Proof. destruct s; [congruence | reflexivity]. Qed.

(** Whatever is in the file, it reads as a complete text once a line end
    has been written after it. *)
Lemma complete_read_app_nl (s : string) :
  complete (universal_newlines (s ++ nl)) = true.
Proof.
  assert (Hne : forall n x, String.length x <= n -> universal_newlines (x ++ nl) <> "").
  { intros n x _. destruct x as [|c r]; [discriminate|].
    cbn [append universal_newlines].
    destruct (Ascii.eqb c CR); [|discriminate].
    destruct (r ++ nl) as [|c2 r2]; [discriminate|].
    destruct (Ascii.eqb c2 LF); discriminate. }
  assert (G : forall n x, String.length x <= n ->
              complete (universal_newlines (x ++ nl)) = true).
  { induction n as [|n IH]; intros x Hx.
    - apply length_le_0 in Hx. now subst.
    - destruct x as [|c r]; [reflexivity|].
      simpl in Hx. cbn [append universal_newlines].
      destruct (Ascii.eqb c CR).
      + destruct r as [|c2 r2]; [reflexivity|].
        cbn [append]. simpl in Hx. destruct (Ascii.eqb c2 LF).
        * rewrite complete_String by (apply (Hne n); lia). apply IH. lia.
        * change (String c2 (r2 ++ nl)) with (String c2 r2 ++ nl).
          rewrite complete_String by (apply (Hne n); simpl; lia).
          apply IH. simpl. lia.
      + rewrite complete_String by (apply (Hne n); lia). apply IH. lia. }
  apply (G (String.length s)). lia.
Qed.

Lemma complete_after_append (song artist content : string) :
  complete (read_text (ledger_append song artist content)) = true.
Proof.
  unfold ledger_append, pair_line, read_text. rewrite <- append_assoc.
  apply complete_read_app_nl.
Qed.

Lemma complete_after_del_line (song artist content : string) :
  complete (read_text content) = true ->
  complete (read_text (snd (del_line_file song artist content))) = true.
Proof.
  intros Hc. rewrite del_line_file_spec. cbn [snd].
  set (kept := filter _ (readlines content)).
  assert (Ht : Forall terminated_line kept).
  { apply Forall_filter. now apply lines_of_complete. }
  assert (Hcr : no_CR (concat_all kept) = true).
  { apply no_CR_concat_all. apply forallb_filter.
    apply no_CR_lines_of. apply universal_newlines_clean. }
  unfold read_text. rewrite (universal_newlines_no_CR _ Hcr).
  now apply complete_concat_all.
Qed.

(** A ledger that is empty or ends with a line end stays so, whatever
    request [update] serves, whatever event the webhook receives and
    whatever pair [del_line] removes; and after a request that appended,
    it ends with a line end whatever it was before. *)
Theorem ledger_stays_complete (w : world) :
  (complete (read_text (unsupported_txt w)) = true ->
   (forall e song artist version,
       complete (read_text (unsupported_txt (snd (update e song artist version w)))) = true)
   /\ (forall method event payload,
         complete (read_text (unsupported_txt
                                (snd (github_webhook method event payload w)))) = true)
   /\ (forall song artist,
         complete (read_text (unsupported_txt (snd (del_line song artist w)))) = true))
  /\ (forall e song artist version,
        unsupported_txt (snd (update e song artist version w)) <> unsupported_txt w ->
        complete (read_text (unsupported_txt (snd (update e song artist version w)))) = true).
Proof.
  split.
  - intros Hc. repeat apply conj.
    + intros e song artist version.
      destruct (update_effect e song artist version w) as [[-> _]|(_ & -> & _)];
        [exact Hc | apply complete_after_append].
    + intros method event payload.
      destruct (github_webhook_effect method event payload w)
        as [->|(issue & labels & l0 & repo & title & song & artist & H)];
        [exact Hc|].
      destruct H as (_ & _ & _ & _ & _ & _ & _ & _ & _ & _ & _ & ->).
      cbn [snd unsupported_txt set_unsupported_txt].
      now apply complete_after_del_line.
    + intros song artist. unfold del_line, bind, get, modify, ret.
      cbn [snd unsupported_txt set_unsupported_txt].
      now apply complete_after_del_line.
  - intros e song artist version Hne.
    destruct (update_effect e song artist version w) as [[E _]|(_ & E & _)];
      [congruence|].
    rewrite E. apply complete_after_append.
Qed.

Lemma ledger_stays_complete_witness :
  let w := initial_world ("X by Y" ++ nl) in
  complete (read_text (unsupported_txt
     (snd (update (sample_env "Test Song 2" "Test Artist" issue_created)
                  "Test Song 2" "Test Artist" (Some "1.1.1") w)))) = true
  /\ complete (read_text (unsupported_txt
        (snd (github_webhook "POST" (Some "issues")
                (closed_issue_payload "X by Y unsupported.") w)))) = true.
Proof.
  destruct (proj1 (ledger_stays_complete (initial_world ("X by Y" ++ nl))) eq_refl)
    as (Hu & Hw & _).
  split; [apply Hu | apply Hw].
Defined.

End LedgerShape.

(** ** More on the credential caches *)

Section CredentialsMore.

Lemma get_github_token_frame (e : env) :
  preserves spotify_token (get_github_token e)
  /\ preserves spotify_token_expiry (get_github_token e).
Proof. split; unfold get_github_token, github_store; quiet. Qed.

Lemma get_spotify_token_frame (e : env) :
  preserves gh_token (get_spotify_token e)
  /\ preserves gh_token_expiry (get_spotify_token e).
Proof. split; unfold get_spotify_token, spotify_store; quiet. Qed.

(** Neither cache touches the other provider's token or expiry, or the
    ledger; each makes at most one request per call, its own refresh
    request, and makes it exactly when the test of the expiry fails. *)
Theorem token_caches_independent (e : env) (w : world) :
  let wg := snd (get_github_token e w) in
  let ws := snd (get_spotify_token e w) in
  (spotify_token wg = spotify_token w
   /\ spotify_token_expiry wg = spotify_token_expiry w
   /\ unsupported_txt wg = unsupported_txt w
   /\ calls wg = (calls w ++ (if fresh Installation e w then []
                              else [InstallationTokenRequest]))%list)
  /\ (gh_token ws = gh_token w
      /\ gh_token_expiry ws = gh_token_expiry w
      /\ unsupported_txt ws = unsupported_txt w
      /\ calls ws = (calls w ++ (if fresh ClientCredentials e w then []
                                 else [SpotifyTokenRequest]))%list).
Proof.
  cbv zeta. split; repeat apply conj.
  - apply (proj1 (get_github_token_frame e)).
  - apply (proj2 (get_github_token_frame e)).
  - apply get_github_token_ledger.
  - unfold get_github_token, fresh, bind, get, modify.
    cbn [cached_expiry margin check_time].
    destruct (Qgtb (gh_token_expiry w - 180) (t_github_check e)).
    + unfold lift, ret. destruct (Json.slice_check (gh_token w)) as [[]|];
        cbn [snd]; now rewrite app_nil_r.
    + pose proof (store_calls Installation e (installation_token_response e)
                              (log_call InstallationTokenRequest w)) as H.
      cbn [store] in H. rewrite H. reflexivity.
  - apply (proj1 (get_spotify_token_frame e)).
  - apply (proj2 (get_spotify_token_frame e)).
  - apply get_spotify_token_ledger.
  - unfold get_spotify_token, fresh, bind, get, modify.
    cbn [cached_expiry margin check_time].
    destruct (Qgtb (spotify_token_expiry w - 300) (t_spotify_check e)).
    + unfold lift, ret. destruct (Json.slice_check (spotify_token w)) as [[]|];
        cbn [snd]; now rewrite app_nil_r.
    + pose proof (store_calls ClientCredentials e (spotify_token_response e)
                              (log_call SpotifyTokenRequest w)) as H.
      cbn [store] in H. rewrite H. reflexivity.
Qed.



(** The same for the installation token, whose expiry is the parsed
    [expires_at]. *)
Theorem refreshed_installation_token_is_reused (e e' : env) (w : world)
        (doc : json) (tok ts : string) (x : Q) :
  (gh_token_expiry w - 180 <= t_github_check e)%Q ->
  body (installation_token_response e) = Some doc ->
  Json.getitem doc "token" = Ok (JStr tok) ->
  Json.getitem doc "expires_at" = Ok (JStr ts) ->
  strptime_timestamp e ts = Some x ->
  (t_github_check e' < x - 180)%Q ->
  let w1 := snd (get_github_token e w) in
  get_github_token e' w1 = (Ok (JStr tok), w1)
  /\ calls w1 = (calls w ++ [InstallationTokenRequest])%list.
Proof.
  intros Hs Hb Ht He Hx Hlt. cbv zeta.
  rewrite (get_github_token_stale e w doc tok ts x Hs Hb Ht He Hx). cbn [snd].
  split; [|reflexivity].
  apply get_github_token_fresh; [reflexivity|].
  cbn [gh_token_expiry set_gh_token_expiry]. exact Hlt.
Qed.

Lemma refreshed_installation_token_is_reused_witness :
  let e := sample_env "Test Song 2" "Test Artist" issue_created in
  let w1 := snd (get_github_token e (initial_world "")) in
  get_github_token e w1 = (Ok (JStr "ghs_sample"), w1).
Proof.
  exact (proj1 (refreshed_installation_token_is_reused
                  (sample_env "Test Song 2" "Test Artist" issue_created)
                  (sample_env "Test Song 2" "Test Artist" issue_created)
                  (initial_world "") _ "ghs_sample" "2020-01-01T01:00:00Z"
                  1577840400%Q
                  ltac:(vm_compute; discriminate) eq_refl eq_refl eq_refl eq_refl
                  ltac:(vm_compute; reflexivity))).
Defined.

(** A refresh that fails.  An answer without the token key raises
    [KeyError] after the request, the stored token and expiry staying as
    they were.  For the installation token, an answer that carries a
    token but no [expires_at] raises [KeyError] with the new token already
    stored and the old expiry kept.  In each case a later call whose clock
    has not gone back finds the token stale again. *)
Theorem failed_refresh_keeps_expiry (e : env) (w : world)
        (fields : list (string * json)) :
  (forall e',
      (gh_token_expiry w - 180 <= t_github_check e)%Q ->
      body (installation_token_response e) = Some (JObj fields) ->
      Json.assoc "token" fields = None ->
      (t_github_check e <= t_github_check e')%Q ->
      get_github_token e w
      = (Raise (KeyError "token"), log_call InstallationTokenRequest w)
      /\ fresh Installation e' (snd (get_github_token e w)) = false)
  /\ (forall e' tok,
        (gh_token_expiry w - 180 <= t_github_check e)%Q ->
        body (installation_token_response e) = Some (JObj fields) ->
        Json.assoc "token" fields = Some tok ->
        Json.assoc "expires_at" fields = None ->
        (t_github_check e <= t_github_check e')%Q ->
        get_github_token e w
        = (Raise (KeyError "expires_at"),
           set_gh_token tok (log_call InstallationTokenRequest w))
        /\ fresh Installation e' (snd (get_github_token e w)) = false)
  /\ (forall e',
        (spotify_token_expiry w - 300 <= t_spotify_check e)%Q ->
        body (spotify_token_response e) = Some (JObj fields) ->
        Json.assoc "access_token" fields = None ->
        (t_spotify_check e <= t_spotify_check e')%Q ->
        get_spotify_token e w
        = (Raise (KeyError "access_token"), log_call SpotifyTokenRequest w)
        /\ fresh ClientCredentials e' (snd (get_spotify_token e w)) = false).
Proof.
  repeat apply conj.
  - intros e' Hs Hb Hk Hle. pose proof Hs as Hs'. apply Qgtb_false in Hs'.
    assert (E : get_github_token e w
                = (Raise (KeyError "token"), log_call InstallationTokenRequest w)).
    { unfold get_github_token, github_store, bind, get, modify, lift, response_json.
      rewrite Hs', Hb. cbn [Json.getitem]. now rewrite Hk. }
    rewrite E. split; [reflexivity|]. cbn [snd]. unfold fresh.
    apply Qgtb_false. cbn [cached_expiry margin check_time gh_token_expiry log_call].
    lra.
  - intros e' tok Hs Hb Hk Hx Hle. pose proof Hs as Hs'. apply Qgtb_false in Hs'.
    assert (E : get_github_token e w
                = (Raise (KeyError "expires_at"),
                   set_gh_token tok (log_call InstallationTokenRequest w))).
    { unfold get_github_token, github_store, bind, get, modify, lift, response_json.
      rewrite Hs', Hb. cbn [Json.getitem]. now rewrite Hk, Hx. }
    rewrite E. split; [reflexivity|]. cbn [snd]. unfold fresh.
    apply Qgtb_false.
    cbn [cached_expiry margin check_time gh_token_expiry log_call set_gh_token].
    lra.
  - intros e' Hs Hb Hk Hle. pose proof Hs as Hs'. apply Qgtb_false in Hs'.
    assert (E : get_spotify_token e w
                = (Raise (KeyError "access_token"), log_call SpotifyTokenRequest w)).
    { unfold get_spotify_token, spotify_store, bind, get, modify, lift, response_json.
      rewrite Hs', Hb. cbn [Json.getitem]. now rewrite Hk. }
    rewrite E. split; [reflexivity|]. cbn [snd]. unfold fresh.
    apply Qgtb_false.
    cbn [cached_expiry margin check_time spotify_token_expiry log_call].
    lra.
Qed.

Lemma failed_refresh_keeps_expiry_witness :
  let e := mkEnv 1577836800 (mkResponse 401 (Some (JObj [("message", JStr "Bad credentials")])))
                 sample_strptime issue_created 1577836800 sample_spotify_token
                 1577836801 (mkResponse 200 (Some (spotify_hit "a" "b"))) "s" in
  get_github_token e (initial_world "")
  = (Raise (KeyError "token"), log_call InstallationTokenRequest (initial_world "")).
Proof.
  exact (proj1 (proj1 (failed_refresh_keeps_expiry
    (mkEnv 1577836800 (mkResponse 401 (Some (JObj [("message", JStr "Bad credentials")])))
           sample_strptime issue_created 1577836800 sample_spotify_token
           1577836801 (mkResponse 200 (Some (spotify_hit "a" "b"))) "s")
    (initial_world "") [("message", JStr "Bad credentials")])
    (mkEnv 1577836800 (mkResponse 401 (Some (JObj [("message", JStr "Bad credentials")])))
           sample_strptime issue_created 1577836800 sample_spotify_token
           1577836801 (mkResponse 200 (Some (spotify_hit "a" "b"))) "s")
    ltac:(vm_compute; discriminate) eq_refl eq_refl ltac:(vm_compute; discriminate))).
Defined.

End CredentialsMore.

(** ** The legitimacy check and the route's guards *)

Section Legitimacy.

(** [check_song] answers [True] only for an exact match: the first track
    of the answer is named [song] and its first artist is named [artist],
    character for character. *)
Theorem check_song_true_is_exact (e : env) (song artist : string) (w w' : world) :
  check_song e song artist w = (Ok true, w') ->
  exists doc tracks items first artists a0,
    body (spotify_search_response e) = Some doc
    /\ Json.getitem doc "tracks" = Ok tracks
    /\ Json.getitem tracks "items" = Ok items
    /\ Json.getitem0 items = Ok first
    /\ Json.getitem first "name" = Ok (JStr song)
    /\ Json.getitem first "artists" = Ok artists
    /\ Json.getitem0 artists = Ok a0
    /\ Json.getitem a0 "name" = Ok (JStr artist).
Proof.
  assert (Heq : forall v s, Json.eq_str v s = true -> v = JStr s).
  { intros v s H. destruct v; try discriminate. cbn [Json.eq_str] in H.
    apply String.eqb_eq in H. now subst. }
  unfold check_song. unfold bind at 1.
  destruct (get_spotify_token e w) as [[tok|x] w1]; [|discriminate].
  unfold bind at 1. unfold modify at 1. cbv zeta.
  unfold bind, catch, lift, ret, rbind, response_json.
  destruct (body (spotify_search_response e)) as [doc|]; [|discriminate].
  destruct (Json.getitem doc "tracks") as [tracks|x] eqn:Ht.
  2:{ destruct (is_KeyError x); discriminate. }
  destruct (Json.getitem tracks "items") as [items|x] eqn:Hi.
  2:{ destruct (is_KeyError x); discriminate. }
  destruct (Json.truthy items); [|discriminate].
  destruct (Json.getitem0 items) as [first|x] eqn:H0; [|discriminate].
  destruct (Json.getitem first "artists") as [artists|x] eqn:Ha; [|discriminate].
  destruct (Json.getitem0 artists) as [a0|x] eqn:Ha0; [|discriminate].
  destruct (Json.getitem a0 "name") as [an|x] eqn:Han; [|discriminate].
  destruct (Json.getitem first "name") as [n|x] eqn:Hn; [|discriminate].
  destruct (Json.eq_str n song) eqn:E1; [|discriminate].
  destruct (Json.eq_str an artist) eqn:E2; [|discriminate].
  intros _. apply Heq in E1, E2. subst n an.
  exists doc, tracks, items, first, artists, a0. repeat split; auto.
Qed.

Lemma check_song_true_is_exact_witness :
  exists first,
    Json.getitem0 (JArr [JObj [("name", JStr "Test Song 2");
                               ("artists", JArr [JObj [("name", JStr "Test Artist")]])]])
    = Ok first
    /\ Json.getitem first "name" = Ok (JStr "Test Song 2").
Proof.
  destruct (check_song_true_is_exact
              (sample_env "Test Song 2" "Test Artist" issue_created)
              "Test Song 2" "Test Artist" (initial_world "") _ eq_refl)
    as (doc & tracks & items & first & artists & a0 & Hb & Ht & Hi & H0 & Hn & _).
  injection Hb as <-. injection Ht as <-. injection Hi as <-.
  exists first. split; assumption.
Defined.

(** What [check_song] makes of the answers that are not a match: [False],
    with the search made, when the answer has no ['tracks'], when its
    tracks have no ['items'], or when the list of items is empty; an
    uncaught [IndexError] when the first track has an empty list of
    artists. *)
Theorem check_song_not_found (e : env) (song artist : string) (w w1 : world)
        (tok : json) (fields : list (string * json)) :
  get_spotify_token e w = (Ok tok, w1) ->
  body (spotify_search_response e) = Some (JObj fields) ->
  let w' := log_call (SpotifySearch tok (song ++ " " ++ artist)) w1 in
  (Json.assoc "tracks" fields = None ->
   check_song e song artist w = (Ok false, w'))
  /\ (forall tfields,
        Json.assoc "tracks" fields = Some (JObj tfields) ->
        Json.assoc "items" tfields = None ->
        check_song e song artist w = (Ok false, w'))
  /\ (forall tfields,
        Json.assoc "tracks" fields = Some (JObj tfields) ->
        Json.assoc "items" tfields = Some (JArr []) ->
        check_song e song artist w = (Ok false, w'))
  /\ (forall tfields first rest,
        Json.assoc "tracks" fields = Some (JObj tfields) ->
        Json.assoc "items" tfields = Some (JArr (JObj first :: rest)) ->
        Json.assoc "artists" first = Some (JArr []) ->
        check_song e song artist w = (Raise IndexError, w')).
Proof.
  intros Ht Hb. cbv zeta.
  repeat apply conj.
  - intros Hk. unfold check_song. unfold bind at 1. rewrite Ht.
    unfold bind, modify, catch, lift, ret, rbind, response_json.
    rewrite Hb. cbn [Json.getitem]. rewrite Hk. reflexivity.
  - intros tfields Hk Hi. unfold check_song. unfold bind at 1. rewrite Ht.
    unfold bind, modify, catch, lift, ret, rbind, response_json.
    rewrite Hb. cbn [Json.getitem]. rewrite Hk. cbn [Json.getitem]. rewrite Hi.
    reflexivity.
  - intros tfields Hk Hi. unfold check_song. unfold bind at 1. rewrite Ht.
    unfold bind, modify, catch, lift, ret, rbind, response_json.
    rewrite Hb. cbn [Json.getitem]. rewrite Hk. cbn [Json.getitem]. rewrite Hi.
    reflexivity.
  - intros tfields first rest Hk Hi Ha. unfold check_song. unfold bind at 1.
    rewrite Ht.
    unfold bind, modify, catch, lift, ret, rbind, response_json.
    rewrite Hb. cbn [Json.getitem]. rewrite Hk. cbn [Json.getitem]. rewrite Hi.
    cbn [Json.truthy Json.getitem0 Json.getitem]. rewrite Ha. reflexivity.
Qed.

Lemma check_song_not_found_witness :
  let e := mkEnv 1577836800 sample_installation_token sample_strptime issue_created
                 1577836800 sample_spotify_token 1577836801
                 (mkResponse 401 (Some (JObj [("error", JStr "invalid token")])))
                 "s" in
  fst (check_song e "Test Song 2" "Test Artist" (initial_world "")) = Ok false.
Proof.
  cbv zeta.
  rewrite (proj1 (check_song_not_found
    (mkEnv 1577836800 sample_installation_token sample_strptime issue_created
           1577836800 sample_spotify_token 1577836801
           (mkResponse 401 (Some (JObj [("error", JStr "invalid token")]))) "s")
    "Test Song 2" "Test Artist" (initial_world "") _ _ _ eq_refl eq_refl) eq_refl).
  reflexivity.
Defined.

(** What a request can do to the ledger and to the issues, whatever the
    request and whatever the providers answer.  The ledger is left as it is
    or gets exactly the pair's line at its end; it is written only when the
    version is not below the floor, the ledger's text does not hold the
    pair, the pair is not made of letters and whitespace only and
    [check_song] answered [True]; an issue is posted only in a request that
    appended the line, and only under the pair's title. *)
Theorem update_writes_only_confirmed (e : env) (song artist : string)
        (version : option string) (w : world) :
  let w' := snd (update e song artist version w) in
  (unsupported_txt w' = unsupported_txt w
   \/ unsupported_txt w' = unsupported_txt w ++ pair_line song artist)
  /\ (unsupported_txt w' <> unsupported_txt w ->
      (exists v, version = Some v /\ String.ltb v "1.1.1" = false)
      /\ ledger_contains song artist (unsupported_txt w) = false
      /\ Re.fullmatch_asrg song && Re.fullmatch_asrg artist = false
      /\ fst (check_song e song artist w) = Ok true)
  /\ (issue_calls w' <> issue_calls w ->
      unsupported_txt w' = unsupported_txt w ++ pair_line song artist)
  /\ (forall c, In c (issue_calls w') ->
        In c (issue_calls w)
        \/ exists tok text, c = GithubCreateIssue tok (issue_title song artist) text).
Proof.
  cbv zeta.
  pose proof (update_effect e song artist version w) as Heff. cbv zeta in Heff.
  repeat apply conj.
  - destruct Heff as [[-> _]|(_ & -> & _)]; [now left | now right].
  - intros Hne.
    destruct version as [v|]; [|exfalso; apply Hne; reflexivity].
    destruct (String.ltb v "1.1.1") eqn:Hv.
    { exfalso. apply Hne. unfold update. now rewrite Hv. }
    destruct (ledger_contains song artist (unsupported_txt w)) eqn:Hc.
    { exfalso. apply Hne. unfold update. rewrite Hv. unfold bind, get.
      unfold ledger_contains, pair_text in Hc. now rewrite Hc. }
    destruct (Re.fullmatch_asrg song && Re.fullmatch_asrg artist) eqn:Ht.
    { exfalso. apply Hne. now rewrite update_trivial_pair. }
    repeat split; eauto.
    rewrite update_reaches_check in Hne by assumption.
    pose proof (check_song_ledger e song artist w) as Hl.
    destruct (check_song e song artist w) as [[[|]|x] w1]; cbn [snd fst] in *;
      [reflexivity | congruence | congruence].
  - intros Hne. destruct Heff as [[_ E]|(_ & E & _)]; [congruence | exact E].
  - intros c Hin. destruct Heff as [[_ E]|(_ & _ & [E|(tok & text & E)])].
    + left. now rewrite <- E.
    + left. now rewrite <- E.
    + rewrite E in Hin. apply in_app_or in Hin. destruct Hin as [Hin|[<-|[]]].
      * now left.
      * right. eauto.
Qed.

End Legitimacy.

(** ** More on the title matcher *)

Section TitleMatcherMore.




Lemma is_alnum_lower_char (c : ascii) : is_alnum (lower_char c) = is_alnum c.
Proof. destruct c as [[] [] [] [] [] [] [] []]; reflexivity. Qed.

Lemma alg_keeps_cases (c : ascii) : Re.alg_keeps c = is_space c || is_alnum c.
Proof. unfold Re.alg_keeps, is_alnum. now rewrite !orb_assoc. Qed.

Lemma space_not_alnum (c : ascii) : is_space c = true -> is_alnum c = false.
Proof. destruct c as [[] [] [] [] [] [] [] []]; cbv; congruence. Qed.








Lemma genius_hit_accepted_count (song artist ft : string) :
  genius_hit_accepted song artist ft
  = negb (Nat.ltb (List.length (genius_words song artist) / 2)
                  (count_missing (genius_words song artist) (Re.sub_alg ft))).
Proof.
  unfold genius_hit_accepted, genius_max_err. now rewrite is_title_mismatched_spec.
Qed.




(** The words [split] yields after a space that follows any text. *)
Lemma split_from_after_space (a rest cur : string) :
  exists pre,
    split_from cur (a ++ String " " rest) = (pre ++ split_from "" rest)%list.
Proof.
  revert cur. induction a as [|c r IH]; intros cur; cbn [append split_from].
  - change (is_space " ") with true. cbn iota.
    destruct (is_empty cur); [exists [] | exists [cur]]; reflexivity.
  - destruct (is_space c).
    + destruct (IH "") as [pre Hpre]. rewrite Hpre.
      destruct (is_empty cur); [exists pre | exists (cur :: pre)]; reflexivity.
    + apply IH.
Qed.

Lemma split_from_words (s cur : string) :
  all_alnum cur = true ->
  Forall (fun w => w <> "" /\ all_alnum w = true)
         (split_from cur (filter_str Re.alg_keeps s)).
Proof.
  revert cur. induction s as [|c r IH]; intros cur Hcur; cbn [filter_str split_from].
  - destruct cur; cbn [is_empty]; constructor; [split; [discriminate | exact Hcur] | constructor].
  - destruct (Re.alg_keeps c) eqn:Ek; [|now apply IH].
    cbn [split_from]. rewrite alg_keeps_cases in Ek.
    destruct (is_space c) eqn:Es.
    + destruct cur as [|d cur']; cbn [is_empty].
      * now apply IH.
      * constructor; [split; [discriminate | exact Hcur] | now apply IH].
    + cbn [orb] in Ek. apply IH. unfold all_alnum in *.
      rewrite forallb_str_app, Hcur. cbn [forallb_str]. now rewrite Ek.
Qed.

Lemma str_in_no_alnum (n h : string) (c : ascii) (r : string) :
  n = String c r -> is_alnum c = true -> no_alnum h = true -> str_in n h = false.
Proof.
  intros -> Hc Hh. destruct (str_in (String c r) h) eqn:E; [|reflexivity].
  apply str_in_iff in E. destruct E as (p & q & ->).
  unfold no_alnum in Hh. rewrite forallb_str_app in Hh.
  apply andb_true_iff in Hh. destruct Hh as [_ Hh].
  cbn [append forallb_str] in Hh. rewrite Hc in Hh. discriminate.
Qed.

Lemma no_alnum_lower_sub_alg (ft : string) :
  no_alnum ft = true -> no_alnum (lower (Re.sub_alg ft)) = true.
Proof.
  unfold no_alnum, Re.sub_alg. induction ft as [|c r IH]; [reflexivity|].
  cbn [forallb_str filter_str]. intros H. apply andb_true_iff in H.
  destruct H as [Hc Hr]. destruct (Re.alg_keeps c); [|now apply IH].
  cbn [lower forallb_str]. now rewrite is_alnum_lower_char, Hc, IH.
Qed.

(** The query of [genius_stripper]: [by] is always one of its words, so it
    is never empty; each word is non-empty and made of a-z, A-Z and 0-9
    only; and a hit whose title holds no letter a-z, A-Z and no digit
    (an empty title among them) is rejected, whatever the query. *)
Theorem genius_query_words (song artist : string) :
  let words := genius_words song artist in
  In "by" words
  /\ 1 <= List.length words
  /\ Forall (fun w => w <> "" /\ all_alnum w = true) words
  /\ (forall full_title,
        no_alnum full_title = true ->
        genius_hit_accepted song artist full_title = false).
Proof.
  cbv zeta.
  assert (Hby : In "by" (genius_words song artist)).
  { unfold genius_words, split, Re.sub_alg. rewrite !filter_str_app.
    change (filter_str Re.alg_keeps " by ") with " by ".
    destruct (split_from_after_space (filter_str Re.alg_keeps song)
                ("by " ++ filter_str Re.alg_keeps artist) "") as [pre Hpre].
    change (" by " ++ filter_str Re.alg_keeps artist)
      with (String " " ("by " ++ filter_str Re.alg_keeps artist)).
    rewrite Hpre. apply in_or_app. right.
    cbn [append split_from]. change (is_space "b") with false.
    change (is_space "y") with false. change (is_space " ") with true.
    cbn [is_empty append]. now left. }
  assert (Hw : Forall (fun w => w <> "" /\ all_alnum w = true)
                      (genius_words song artist)).
  { unfold genius_words, split, Re.sub_alg. now apply split_from_words. }
  repeat apply conj; auto.
  - destruct (genius_words song artist); [destruct Hby | cbn; lia].
  - intros ft Hft. rewrite genius_hit_accepted_count.
    assert (Hall : count_missing (genius_words song artist) (Re.sub_alg ft)
                   = List.length (genius_words song artist)).
    { pose proof (no_alnum_lower_sub_alg ft Hft) as Hn.
      unfold count_missing. clear Hby.
      induction Hw as [|w ws [Hne Ha] _ IH]; [reflexivity|].
      cbn [filter]. unfold missing at 1.
      destruct w as [|c r]; [congruence|].
      rewrite (str_in_no_alnum (lower (String c r)) _ (lower_char c) (lower r)
                 eq_refl); auto.
      - cbn [negb List.length]. now rewrite IH.
      - unfold all_alnum in Ha. cbn [forallb_str] in Ha.
        apply andb_true_iff in Ha. rewrite is_alnum_lower_char. tauto. }
    rewrite Hall. apply negb_false_iff. apply Nat.ltb_lt.
    assert (1 <= List.length (genius_words song artist)).
    { destruct (genius_words song artist); [destruct Hby | cbn; lia]. }
    apply Nat.Div0.div_lt_upper_bound. lia.
Qed.

End TitleMatcherMore.

(** ** The lyrics search *)

Section LyricsSearch.

Example gstr_search_paths :
  gstr_search "/Adele-hello-lyrics" = Some "Adele-hello"
  /\ gstr_search "/albums/Adele/25" = None
  /\ gstr_search "Adele-hello-lyrics" = None
  /\ gstr_search "/a/Adele-lyrics-lyrics" = Some "Adele-lyrics".
Proof. repeat split. Qed.

Lemma gstr_run_cons (c : ascii) (r : string) :
  gstr_run (String c r)
  = if gstr_class c then
      match gstr_run r with
      | Some g => Some (String c g)
      | None => if gstr_lookahead r then Some (String c "") else None
      end
    else None.
Proof. reflexivity. Qed.

Lemma gstr_lookahead_iff (s : string) :
  gstr_lookahead s = true
  <-> exists e, s = "-lyrics" ++ e /\ at_end e = true.
Proof.
  unfold gstr_lookahead. rewrite andb_true_iff, prefix_iff. split.
  - intros [[q ->] H]. exists q. split; [reflexivity|]. exact H.
  - intros (e & -> & H). split; [eauto | exact H].
Qed.

(** What a match of the run is. *)
Lemma gstr_run_sound (s g : string) :
  gstr_run s = Some g ->
  exists e, s = g ++ "-lyrics" ++ e /\ at_end e = true
            /\ g <> "" /\ forallb_str gstr_class g = true.
Proof.
  revert g. induction s as [|c r IH]; intros g H; [discriminate|].
  rewrite gstr_run_cons in H. destruct (gstr_class c) eqn:Ec; [|discriminate].
  destruct (gstr_run r) as [g0|] eqn:E.
  - injection H as <-. destruct (IH g0 eq_refl) as (e & -> & He & _ & Hg).
    exists e. repeat split; auto; [discriminate|].
    cbn [forallb_str]. now rewrite Ec, Hg.
  - destruct (gstr_lookahead r) eqn:El; [|discriminate]. injection H as <-.
    apply gstr_lookahead_iff in El. destruct El as (e & -> & He).
    exists e. repeat split; auto; [discriminate|].
    cbn [forallb_str]. now rewrite Ec.
Qed.

Lemma gstr_run_complete (g e : string) :
  g <> "" -> forallb_str gstr_class g = true -> at_end e = true ->
  gstr_run (g ++ "-lyrics" ++ e) <> None.
Proof.
  induction g as [|c g IH]; intros Hne Hg He; [congruence|].
  cbn [forallb_str] in Hg. apply andb_true_iff in Hg. destruct Hg as [Hc Hg].
  change (String c g ++ "-lyrics" ++ e) with (String c (g ++ "-lyrics" ++ e)).
  rewrite gstr_run_cons, Hc.
  destruct (gstr_run (g ++ "-lyrics" ++ e)) eqn:E; [discriminate|].
  destruct g as [|d g'].
  - assert (Hl : gstr_lookahead ("" ++ "-lyrics" ++ e) = true).
    { apply gstr_lookahead_iff. exists e. split; [reflexivity | exact He]. }
    rewrite Hl. discriminate.
  - exfalso. apply IH; auto. discriminate.
Qed.

Lemma at_end_cases (e : string) : at_end e = true -> e = "" \/ e = nl.
Proof.
  destruct e as [|c [|d r]]; cbn; try discriminate; auto.
  intros H. apply Ascii.eqb_eq in H. subst. now right.
Qed.

Lemma gstr_class_not_LF (s : string) :
  forallb_str gstr_class s = true -> no_LF s = true.
Proof.
  unfold no_LF. induction s as [|c r IH]; [reflexivity|].
  cbn [forallb_str]. intros H. apply andb_true_iff in H. destruct H as [Hc Hr].
  rewrite (IH Hr), andb_true_r. unfold not_LF.
  destruct (Ascii.eqb c LF) eqn:E; [|reflexivity].
  apply Ascii.eqb_eq in E. subst c. discriminate.
Qed.

Lemma gstr_class_no_slash (s : string) :
  forallb_str gstr_class s = true ->
  forallb_str (fun c => negb (Ascii.eqb c "/")) s = true.
Proof.
  induction s as [|c r IH]; [reflexivity|].
  cbn [forallb_str]. intros H. apply andb_true_iff in H. destruct H as [Hc Hr].
  rewrite (IH Hr), andb_true_r.
  destruct (Ascii.eqb c "/") eqn:E; [|reflexivity].
  apply Ascii.eqb_eq in E. subst c. discriminate.
Qed.

(** The run on the tail of a Genius path. *)
Lemma gstr_run_slug (slug : string) :
  slug <> "" -> forallb_str gstr_class slug = true ->
  gstr_run (slug ++ "-lyrics") = Some slug.
Proof.
  intros Hne Hc.
  pose proof (gstr_run_complete slug "" Hne Hc eq_refl) as H.
  destruct (gstr_run (slug ++ "-lyrics" ++ "")) as [g|] eqn:E; [|congruence].
  clear H. change ("-lyrics" ++ "") with "-lyrics" in E. rewrite E. f_equal.
  apply gstr_run_sound in E. destruct E as (e & He & Hend & _ & Hg).
  apply at_end_cases in Hend. destruct Hend as [->| ->].
  - change ("-lyrics" ++ "") with "-lyrics" in He.
    symmetry. now apply (append_inj_r _ _ "-lyrics").
  - exfalso.
    assert (Hl : no_LF (slug ++ "-lyrics") = true).
    { rewrite no_LF_app, (gstr_class_not_LF slug Hc). reflexivity. }
    rewrite He, !no_LF_app in Hl.
    apply andb_true_iff in Hl. destruct Hl as [_ Hl].
    apply andb_true_iff in Hl. destruct Hl as [_ Hl]. discriminate.
Qed.

(** No run matches on a text that still holds a [/]. *)
Lemma gstr_run_slash (a b : string) : gstr_run (a ++ String "/" b) = None.
Proof.
  destruct (gstr_run (a ++ String "/" b)) as [g|] eqn:E; [|reflexivity].
  exfalso. apply gstr_run_sound in E. destruct E as (e & He & Hend & _ & Hg).
  assert (Hs : forallb_str (fun c => negb (Ascii.eqb c "/")) (g ++ "-lyrics" ++ e)
               = true).
  { rewrite !forallb_str_app, (gstr_class_no_slash g Hg).
    apply at_end_cases in Hend. destruct Hend as [->| ->]; reflexivity. }
  rewrite <- He, forallb_str_app in Hs.
  apply andb_true_iff in Hs. destruct Hs as [_ Hs]. discriminate.
Qed.

Lemma gstr_search_from_eq (b : bool) (s : string) :
  gstr_search_from b s
  = match (if b then gstr_run s else None) with
    | Some g => Some g
    | None =>
        match s with
        | EmptyString => None
        | String c r => gstr_search_from (Ascii.eqb c "/") r
        end
    end.
Proof. destruct s; reflexivity. Qed.

(** The stripper of a Genius path: whatever precedes the last [/], the
    search gives the text between it and the ending [-lyrics], when that
    text is a non-empty run of [-], letters a-z, A-Z and digits. *)
Theorem gstr_search_genius_path (before slug : string) :
  slug <> "" -> forallb_str gstr_class slug = true ->
  gstr_search (before ++ "/" ++ slug ++ "-lyrics") = Some slug.
Proof.
  intros Hne Hc. unfold gstr_search.
  enough (G : forall b, gstr_search_from b (before ++ "/" ++ slug ++ "-lyrics")
                        = Some slug) by apply G.
  induction before as [|c r IH]; intros b.
  - change ("" ++ "/" ++ slug ++ "-lyrics") with (String "/" (slug ++ "-lyrics")).
    rewrite gstr_search_from_eq.
    assert (E : (if b then gstr_run (String "/" (slug ++ "-lyrics")) else None) = None).
    { destruct b; [|reflexivity]. apply (gstr_run_slash ""). }
    rewrite E. change (Ascii.eqb "/" "/") with true.
    rewrite gstr_search_from_eq. now rewrite (gstr_run_slug slug Hne Hc).
  - change (String c r ++ "/" ++ slug ++ "-lyrics")
      with (String c (r ++ "/" ++ slug ++ "-lyrics")).
    rewrite gstr_search_from_eq.
    assert (E : (if b then gstr_run (String c (r ++ "/" ++ slug ++ "-lyrics"))
                 else None) = None).
    { destruct b; [|reflexivity].
      apply (gstr_run_slash (String c r) (slug ++ "-lyrics")). }
    rewrite E. apply IH.
Qed.

Lemma gstr_search_genius_path_witness :
  gstr_search "https://genius.com/Adele-hello-lyrics" = Some "Adele-hello".
Proof.
  exact (gstr_search_genius_path "https://genius.com" "Adele-hello"
                                 ltac:(discriminate) eq_refl).
Defined.

(** What a match of the search is: a non-empty run of the class that
    follows a [/] and is followed by [-lyrics] at the end of the path. *)
Lemma gstr_search_from_sound (s g : string) :
  forall b,
    gstr_search_from b s = Some g ->
    exists pre e,
      s = pre ++ g ++ "-lyrics" ++ e /\ at_end e = true
      /\ g <> "" /\ forallb_str gstr_class g = true
      /\ ((pre = "" /\ b = true) \/ exists pre', pre = pre' ++ "/").
Proof.
  induction s as [|c r IH]; intros b H; rewrite gstr_search_from_eq in H.
  - destruct b; cbn in H; discriminate.
  - destruct (if b then gstr_run (String c r) else None) as [g0|] eqn:E.
    + injection H as ->. destruct b; [|discriminate].
      apply gstr_run_sound in E. destruct E as (e & He & Hend & Hne & Hg).
      exists "", e. repeat split; auto.
    + destruct (IH _ H) as (pre & e & -> & Hend & Hne & Hg & Hpre).
      exists (String c pre), e. repeat split; auto. right.
      destruct Hpre as [[-> Hb]|[pre' ->]].
      * apply Ascii.eqb_eq in Hb. subst c. exists "". reflexivity.
      * exists (String c pre'). reflexivity.
Qed.

Lemma genius_hits_found (song artist : string) (hits : list json) (s : string) :
  genius_hits song artist hits = Ok (Some s) ->
  exists before hit after res ft p,
    hits = (before ++ hit :: after)%list
    /\ Forall (passed_over song artist) before
    /\ Json.getitem hit "result" = Ok res
    /\ Json.getitem res "full_title" = Ok (JStr ft)
    /\ genius_hit_accepted song artist ft = true
    /\ Json.getitem res "path" = Ok (JStr p)
    /\ gstr_search p = Some s.
Proof.
  induction hits as [|hit rest IH]; intros H; [discriminate|].
  cbn [genius_hits] in H. unfold rbind in H.
  destruct (Json.getitem hit "result") as [res|x] eqn:Hres; [|discriminate].
  destruct (Json.getitem res "full_title") as [ft|x] eqn:Hft; [|discriminate].
  destruct ft as [| | |ft| |]; try discriminate.
  assert (Hrest : genius_hits song artist rest = Ok (Some s) ->
                  passed_over song artist hit ->
                  exists before hit0 after res0 ft0 p,
                    hit :: rest = (before ++ hit0 :: after)%list
                    /\ Forall (passed_over song artist) before
                    /\ Json.getitem hit0 "result" = Ok res0
                    /\ Json.getitem res0 "full_title" = Ok (JStr ft0)
                    /\ genius_hit_accepted song artist ft0 = true
                    /\ Json.getitem res0 "path" = Ok (JStr p)
                    /\ gstr_search p = Some s).
  { intros Hr Hp.
    destruct (IH Hr) as (before & h & after & res0 & ft0 & p & -> & Hb & Hrest).
    exists (hit :: before), h, after, res0, ft0, p. split; [reflexivity|].
    split; [constructor; assumption | exact Hrest]. }
  destruct (genius_hit_accepted song artist ft) eqn:Hacc.
  - destruct (Json.getitem res "path") as [p|x] eqn:Hp; [|discriminate].
    destruct p as [| | |p| |]; try discriminate.
    destruct (gstr_search p) as [g|] eqn:Hg.
    + injection H as ->.
      exists [], hit, rest, res, ft, p. repeat split; auto.
    + apply Hrest; [exact H|]. exists res, ft. repeat split; auto.
      right. exists p. split; assumption.
  - apply Hrest; [exact H|]. exists res, ft. repeat split; auto.
Qed.

Lemma genius_stripper_nonempty (r : response) (song artist s : string) :
  genius_stripper r song artist = Ok (Some s) -> s <> "".
Proof.
  unfold genius_stripper, rbind, response_json.
  destruct (status_code r =? 200)%Z; [|discriminate].
  destruct (body r) as [data|]; [|discriminate].
  destruct (Json.getitem data "meta") as [meta|x]; [|discriminate].
  destruct (Json.getitem meta "status") as [status|x]; [|discriminate].
  destruct (json_eq_int status 200); [|discriminate].
  destruct (Json.getitem data "response") as [resp|x]; [|discriminate].
  destruct (Json.getitem resp "hits") as [hits|x]; [|discriminate].
  destruct (json_iter hits) as [items|x]; [|discriminate].
  intros H. apply genius_hits_found in H.
  destruct H as (before & hit & after & res & ft & p & _ & _ & _ & _ & _ & _ & Hg).
  apply gstr_search_from_sound in Hg.
  destruct Hg as (pre & e & _ & _ & Hne & _). exact Hne.
Qed.

(** When [genius_stripper] returns a stripper: the search answered 200
    with a meta status equal to 200, and the stripper comes from the first
    hit whose title is accepted and whose path has a match of [gstr], the
    hits before it having been passed over; it is a non-empty run of [-],
    a-z, A-Z and 0-9 that stands in that path between a [/] and the
    ending [-lyrics]. *)
Theorem genius_stripper_found (r : response) (song artist s : string) :
  genius_stripper r song artist = Ok (Some s) ->
  status_code r = 200%Z
  /\ (exists data meta status resp hits items,
        body r = Some data
        /\ Json.getitem data "meta" = Ok meta
        /\ Json.getitem meta "status" = Ok status
        /\ json_eq_int status 200 = true
        /\ Json.getitem data "response" = Ok resp
        /\ Json.getitem resp "hits" = Ok hits
        /\ json_iter hits = Ok items
        /\ exists before hit after res ft p,
             items = (before ++ hit :: after)%list
             /\ Forall (passed_over song artist) before
             /\ Json.getitem hit "result" = Ok res
             /\ Json.getitem res "full_title" = Ok (JStr ft)
             /\ genius_hit_accepted song artist ft = true
             /\ Json.getitem res "path" = Ok (JStr p)
             /\ gstr_search p = Some s
             /\ exists pre e, p = (pre ++ "/") ++ s ++ "-lyrics" ++ e
                              /\ at_end e = true)
  /\ s <> "" /\ forallb_str gstr_class s = true.
Proof.
  unfold genius_stripper, rbind, response_json.
  destruct (status_code r =? 200)%Z eqn:Hst; [|discriminate].
  apply Z.eqb_eq in Hst.
  destruct (body r) as [data|]; [|discriminate].
  destruct (Json.getitem data "meta") as [meta|x] eqn:Hm; [|discriminate].
  destruct (Json.getitem meta "status") as [status|x] eqn:Hs; [|discriminate].
  destruct (json_eq_int status 200) eqn:He; [|discriminate].
  destruct (Json.getitem data "response") as [resp|x] eqn:Hr; [|discriminate].
  destruct (Json.getitem resp "hits") as [hits|x] eqn:Hh; [|discriminate].
  destruct (json_iter hits) as [items|x] eqn:Hi; [|discriminate].
  intros H. apply genius_hits_found in H.
  destruct H as (before & hit & after & res & ft & p & Hitems & Hb & Hres & Hft
                 & Hacc & Hp & Hg).
  pose proof Hg as Hg'. apply gstr_search_from_sound in Hg'.
  destruct Hg' as (pre & e & Hpe & Hend & Hne & Hcl & [[_ Hf]|[pre' Hpre]]);
    [discriminate|].
  split; [exact Hst|]. split; [|split; assumption].
  exists data, meta, status, resp, hits, items. repeat split; auto.
  exists before, hit, after, res, ft, p. repeat split; auto.
  exists pre', e. subst pre. split; assumption.
Qed.

Lemma genius_stripper_found_witness :
  status_code (genius_answer [genius_hit "Something else" "/Something-else-lyrics";
                              genius_hit "Hello by Adele" "/Adele-hello-lyrics"])
  = 200%Z
  /\ "Adele-hello" <> "".
Proof.
  destruct (genius_stripper_found
              (genius_answer [genius_hit "Something else" "/Something-else-lyrics";
                              genius_hit "Hello by Adele" "/Adele-hello-lyrics"])
              "Hello" "Adele" "Adele-hello" eq_refl) as (H1 & _ & H2 & _).
  split; assumption.
Defined.

Lemma genius_hits_passed_over (song artist : string) (hits : list json) :
  Forall (passed_over song artist) hits -> genius_hits song artist hits = Ok None.
Proof.
  induction 1 as [|hit rest (res & ft & Hres & Hft & Hcase) _ IH]; [reflexivity|].
  cbn [genius_hits]. unfold rbind. rewrite Hres, Hft.
  destruct Hcase as [->|(p & Hp & Hg)]; [exact IH|].
  destruct (genius_hit_accepted song artist ft); [|exact IH].
  now rewrite Hp, Hg.
Qed.

(** When [genius_stripper] returns [None] without raising: for every
    answer whose status code is not 200, whatever its body; for an answer
    whose meta status is not 200; and when every hit is passed over (no
    hit at all among them). *)
Theorem genius_stripper_not_found (r : response) (song artist : string) :
  (status_code r <> 200%Z -> genius_stripper r song artist = Ok None)
  /\ (forall data meta status,
        status_code r = 200%Z ->
        body r = Some data ->
        Json.getitem data "meta" = Ok meta ->
        Json.getitem meta "status" = Ok status ->
        json_eq_int status 200 = false ->
        genius_stripper r song artist = Ok None)
  /\ (forall data meta status resp hits items,
        status_code r = 200%Z ->
        body r = Some data ->
        Json.getitem data "meta" = Ok meta ->
        Json.getitem meta "status" = Ok status ->
        json_eq_int status 200 = true ->
        Json.getitem data "response" = Ok resp ->
        Json.getitem resp "hits" = Ok hits ->
        json_iter hits = Ok items ->
        Forall (passed_over song artist) items ->
        genius_stripper r song artist = Ok None).
Proof.
  repeat apply conj.
  - intros H. unfold genius_stripper. apply Z.eqb_neq in H. now rewrite H.
  - intros data meta status Hst Hb Hm Hs He.
    unfold genius_stripper, rbind, response_json.
    apply Z.eqb_eq in Hst. now rewrite Hst, Hb, Hm, Hs, He.
  - intros data meta status resp hits items Hst Hb Hm Hs He Hr Hh Hi Hall.
    unfold genius_stripper, rbind, response_json.
    apply Z.eqb_eq in Hst. rewrite Hst, Hb, Hm, Hs, He, Hr, Hh, Hi.
    now apply genius_hits_passed_over.
Qed.

Lemma genius_stripper_not_found_witness :
  genius_stripper (mkResponse 403 None) "Hello" "Adele" = Ok None.
Proof.
  exact (proj1 (genius_stripper_not_found (mkResponse 403 None) "Hello" "Adele")
               ltac:(discriminate)).
Defined.

(** [/stripper]: a stripper found in the table is sent as it is, whatever
    Genius answered; otherwise the answer is 200 with the non-empty
    stripper [genius_stripper] found, or 404 with an empty body when it
    found none; the route raises only when [genius_stripper] does. *)
Theorem get_stripper_answers (stored : option string) (r : response)
        (song artist : string) :
  (forall stripper, stored = Some stripper ->
      get_stripper stored r song artist = Ok (stripper, 200%Z))
  /\ (stored = None ->
      (forall s, genius_stripper r song artist = Ok (Some s) ->
                 get_stripper stored r song artist = Ok (s, 200%Z) /\ s <> "")
      /\ (genius_stripper r song artist = Ok None ->
          get_stripper stored r song artist = Ok ("", 404%Z))
      /\ (forall x, genius_stripper r song artist = Raise x ->
                    get_stripper stored r song artist = Raise x))
  /\ (forall text code,
        get_stripper stored r song artist = Ok (text, code) ->
        (code = 200%Z \/ code = 404%Z) /\ (code = 404%Z <-> text = "" /\ stored = None)).
Proof.
  split; [|split].
  - intros stripper ->. reflexivity.
  - intros ->. repeat apply conj.
    + intros s Hs. pose proof (genius_stripper_nonempty r song artist s Hs) as Hne.
      unfold get_stripper, rbind. rewrite Hs.
      destruct s; [congruence|]. split; [reflexivity | discriminate].
    + intros Hs. unfold get_stripper, rbind. now rewrite Hs.
    + intros x Hs. unfold get_stripper, rbind. now rewrite Hs.
  - destruct stored as [stripper|].
    + intros text code H. injection H as <- <-. split; [now left|].
      split; [discriminate | intros [_ H]; discriminate].
    + intros text code H. unfold get_stripper, rbind in H.
      destruct (genius_stripper r song artist) as [[s|]|x] eqn:Hs; [| |discriminate].
      * pose proof (genius_stripper_nonempty r song artist s Hs) as Hne.
        destruct s as [|c s']; [congruence|]. cbn [is_empty] in H.
        injection H as <- <-. split; [now left|].
        split; [discriminate | intros [H _]; discriminate].
      * injection H as <- <-. split; [now right|]. split; auto.
Qed.

Lemma get_stripper_answers_witness :
  get_stripper (Some "Adele-hello") (mkResponse 500 None) "Hello" "Adele"
  = Ok ("Adele-hello", 200%Z).
Proof.
  exact (proj1 (get_stripper_answers (Some "Adele-hello") (mkResponse 500 None)
                                     "Hello" "Adele") "Adele-hello" eq_refl).
Defined.

End LyricsSearch.

(** ** The routes behind the password *)

Section Password.

(** Without the password, [/delete_unsupported] and [/add_stripper] answer
    403 and change nothing: not the ledger, not the table, not the rest of
    the world.  With it, each removes from the ledger the lines of the pair
    and nothing else, reports how many there were, and [/add_stripper] adds
    exactly one row, the one it was given, after those the table had. *)
Theorem password_guards_ledger (passwd auth song artist stripper : string)
        (table : list lyrics_row) (w : world) :
  (auth <> passwd ->
   delete_line passwd auth song artist w = (Ok (Aborted 403), w)
   /\ add_stripper passwd auth song artist stripper table w
      = (Ok (Aborted 403, table), w))
  /\ (auth = passwd ->
      let removed := del_line_file song artist (unsupported_txt w) in
      let w' := set_unsupported_txt (snd removed) w in
      delete_line passwd auth song artist w
      = (Ok (Sent ("Removed " ++ str_of_nat (count_line (pair_line song artist)
                                              (readlines (unsupported_txt w)))
                   ++ " instances of " ++ song ++ " by " ++ artist
                   ++ " from unsupported.txt successfully.")), w')
      /\ (exists text,
            add_stripper passwd auth song artist stripper table w
            = (Ok (Sent text, (table ++ [mkRow song artist stripper])%list), w'))
      /\ readlines (unsupported_txt w') = other_lines song artist (unsupported_txt w)).
Proof.
  split.
  - intros Hne. apply String.eqb_neq in Hne.
    unfold delete_line, add_stripper. rewrite Hne. split; reflexivity.
  - intros ->. cbv zeta. unfold delete_line, add_stripper.
    rewrite String.eqb_refl. cbn [negb].
    unfold del_line, bind, get, modify, ret. cbn [fst snd].
    repeat apply conj.
    + now rewrite del_line_file_spec.
    + eexists. reflexivity.
    + cbn [unsupported_txt set_unsupported_txt]. apply readlines_after_del_line.
Qed.

Lemma password_guards_ledger_witness :
  delete_line "secret" "guess" "X" "Y" (initial_world ("X by Y" ++ nl))
  = (Ok (Aborted 403), initial_world ("X by Y" ++ nl))
  /\ delete_line "secret" "secret" "X" "Y" (initial_world ("X by Y" ++ nl ++ "Z by W" ++ nl))
     = (Ok (Sent "Removed 1 instances of X by Y from unsupported.txt successfully."),
        initial_world ("Z by W" ++ nl)).
Proof.
  split.
  - exact (proj1 (proj1 (password_guards_ledger "secret" "guess" "X" "Y" "s" []
                           (initial_world ("X by Y" ++ nl))) ltac:(discriminate))).
  - exact (proj1 (proj2 (password_guards_ledger "secret" "secret" "X" "Y" "s" []
                           (initial_world ("X by Y" ++ nl ++ "Z by W" ++ nl))) eq_refl)).
Defined.

End Password.

(** ** The deploy webhook *)

Section Deploy.

Lemma first_line_spec (s : string) :
  no_LF (first_line s) = true
  /\ exists rest, s = first_line s ++ rest /\ (rest = "" \/ exists r, rest = nl ++ r).
Proof.
  induction s as [|c r [IH1 (rest & IH2 & IH3)]].
  - split; [reflexivity|]. exists "". split; [reflexivity | now left].
  - cbn [first_line]. destruct (Ascii.eqb c LF) eqn:E.
    + split; [reflexivity|]. apply Ascii.eqb_eq in E. subst c.
      exists (String LF r). split; [reflexivity|]. right. exists r. reflexivity.
    + split.
      * unfold no_LF, not_LF in *. cbn [forallb_str]. now rewrite E, IH1.
      * exists rest. split; [|exact IH3]. cbn [append]. now rewrite <- IH2.
Qed.

(** The body that [discord_deploy] posts: its first embed is titled with
    the first line of the head commit's message, a text without line feed
    that the message starts with and that is followed, in the message, by
    nothing or by a line feed.  No body is built from a payload whose
    [head_commit] lacks the message or is not a dictionary. *)
Theorem discord_embed_title (payload body : json) :
  discord_embed payload = Ok body ->
  exists head_commit message,
    Json.getitem payload "head_commit" = Ok head_commit
    /\ Json.getitem head_commit "message" = Ok (JStr message)
    /\ embed_title body = Ok (JStr (first_line message))
    /\ no_LF (first_line message) = true
    /\ exists rest, message = first_line message ++ rest
                    /\ (rest = "" \/ exists r, rest = nl ++ r).
Proof.
  unfold discord_embed, rbind.
  destruct (Json.getitem payload "head_commit") as [hc|x] eqn:Hhc; [|discriminate].
  destruct (Json.getitem hc "author") as [author|x]; [|discriminate].
  destruct (Json.getitem hc "message") as [message|x] eqn:Hm; [|discriminate].
  destruct message as [| | |m| |]; try discriminate.
  destruct (Json.getitem hc "id") as [id|x]; [|discriminate].
  destruct (Json.getitem hc "url") as [url|x]; [|discriminate].
  destruct (Json.getitem hc "timestamp") as [ts|x]; [|discriminate].
  destruct (Json.getitem author "name") as [name|x]; [|discriminate].
  destruct (Json.getitem author "username") as [username|x]; [|discriminate].
  intros H. injection H as <-.
  exists hc, m. destruct (first_line_spec m) as [H1 H2].
  repeat split; auto.
Qed.

Lemma discord_embed_title_witness :
  embed_title
    (match discord_embed (push_payload "refs/heads/master" "abc123"
                            ("Fix the matcher" ++ nl ++ nl ++ "* squashed"))
     with Ok b => b | Raise _ => JNull end)
  = Ok (JStr "Fix the matcher").
Proof.
  destruct (discord_embed_title
              (push_payload "refs/heads/master" "abc123"
                            ("Fix the matcher" ++ nl ++ nl ++ "* squashed"))
              _ eq_refl) as (hc & m & Hhc & Hm & Ht & _).
  injection Hhc as <-. injection Hm as <-. exact Ht.
Defined.

(** The deploy webhook pulls only for a [push] event on
    [refs/heads/master], and posts a notification only after a pull whose
    first entry has flags of at most 128 and the commit that the payload
    names as [after]; it then posts once, the body built from the
    payload, and answers with that commit.  A [POST] with another event, or a
    push to another ref, does nothing outside the process. *)
Theorem update_webhook_deploys_master_only (method : string)
        (event : option string) (payload : json) (pull_info : list (Z * string)) :
  let out := update_webhook method event payload pull_info in
  (snd out = []
   \/ (method = "POST" /\ event = Some "push"
       /\ Json.getitem payload "ref" = Ok (JStr "refs/heads/master")
       /\ exists more, snd out = GitPull :: more
                       /\ (more = [] \/ exists body, more = [DiscordPost body])))
  /\ (forall body, In (DiscordPost body) (snd out) ->
        exists flags commit_hash rest,
          pull_info = (flags, commit_hash) :: rest
          /\ (flags <= 128)%Z
          /\ Json.getitem payload "after" = Ok (JStr commit_hash)
          /\ discord_embed payload = Ok body
          /\ out = (Ok (updated_text commit_hash), [GitPull; DiscordPost body])).
Proof.
  assert (Heq : forall v s, Json.eq_str v s = true -> v = JStr s).
  { intros v s H. destruct v; try discriminate. cbn [Json.eq_str] in H.
    apply String.eqb_eq in H. now subst. }
  cbv zeta. unfold update_webhook.
  destruct (String.eqb method "POST") eqn:Hm;
    [|split; [now left | intros b []]].
  apply String.eqb_eq in Hm. cbn [negb].
  destruct event as [ev|]; [|split; [now left | intros b []]].
  destruct (string_dec ev "push") as [->|Hne].
  - cbn -[Json.getitem Json.eq_str discord_embed].
    destruct (Json.getitem payload "ref") as [ref|x] eqn:Hr;
      [|split; [now left | intros b []]].
    destruct (Json.eq_str ref "refs/heads/master") eqn:Href;
      [|split; [now left | intros b []]].
    apply Heq in Href. subst ref. cbn [negb].
    destruct pull_info as [|[flags commit_hash] rest].
    { split; [|intros b [H|[]]; discriminate].
      right. repeat split; auto. exists []. split; [reflexivity | now left]. }
    destruct (128 <? flags)%Z eqn:Hf.
    { split; [|intros b [H|[]]; discriminate].
      right. repeat split; auto. exists []. split; [reflexivity | now left]. }
    apply Z.ltb_ge in Hf.
    destruct (Json.getitem payload "after") as [after|x] eqn:Ha.
    2:{ split; [|intros b [H|[]]; discriminate].
        right. repeat split; auto. exists []. split; [reflexivity | now left]. }
    destruct (Json.eq_str after commit_hash) eqn:Hac.
    2:{ split; [|intros b [H|[]]; discriminate].
        right. repeat split; auto. exists []. split; [reflexivity | now left]. }
    apply Heq in Hac. subst after.
    destruct (discord_embed payload) as [body|x] eqn:Hd.
    2:{ split; [|intros b [H|[]]; discriminate].
        right. repeat split; auto. exists []. split; [reflexivity | now left]. }
    split.
    + right. repeat split; auto. exists [DiscordPost body].
      split; [reflexivity|]. right. eauto.
    + intros b [H|[H|[]]]; [discriminate|]. injection H as <-.
      exists flags, commit_hash, rest. repeat split; auto.
  - assert (E : forall (a b c : result string * list deploy_action),
               match ev with
               | "ping" => a
               | "push" => b
               | _ => c
               end = if String.eqb ev "ping" then a else c).
    { intros a b c.
      destruct (String.eqb ev "ping") eqn:Ep.
      - apply String.eqb_eq in Ep. now subst.
      - apply String.eqb_neq in Ep. clear - Hne Ep.
        repeat (match goal with
                | |- context [match ?x with _ => _ end] =>
                    destruct x; try congruence; try reflexivity
                end). }
    rewrite E. destruct (String.eqb ev "ping"); split;
      solve [now left | intros b []].
Qed.

Lemma update_webhook_deploys_master_only_witness :
  let payload := push_payload "refs/heads/master" "abc123" "Fix the matcher" in
  exists body,
    update_webhook "POST" (Some "push") payload [(64%Z, "abc123")]
    = (Ok (updated_text "abc123"), [GitPull; DiscordPost body]).
Proof.
  cbv zeta.
  destruct (proj2 (update_webhook_deploys_master_only "POST" (Some "push")
             (push_payload "refs/heads/master" "abc123" "Fix the matcher")
             [(64%Z, "abc123")])
             (match discord_embed (push_payload "refs/heads/master" "abc123"
                                                "Fix the matcher")
              with Ok b => b | Raise _ => JNull end))
    as (flags & h & rest & Hp & _ & _ & _ & Hout).
  - right. left. reflexivity.
  - injection Hp as <- <- <-. eexists. exact Hout.
Defined.

Example update_webhook_other_branch :
  update_webhook "POST" (Some "push")
                 (push_payload "refs/heads/dev" "abc123" "Fix") [(64%Z, "abc123")]
  = (Ok (msg_json "Not master; ignoring"), []).
Proof. reflexivity. Qed.

End Deploy.
